(** * Autocomplete trie tool: the command dispatcher (src/app.py), the CSV
      helpers (src/io_utils.py) and the prefix trie they drive.

    Python values are embedded as follows.
    - [str] is [string]; a character of a word is an [ascii].
    - The builtins the code calls but does not define ([str.strip],
      [str.lower], [str.split], [float], [int], [str] of a float,
      [str] of a [Path], comparison of floats) are the fields of the
      class [Builtins]; every definition and theorem of the development is
      generic in it.  [Sample] is one instance, used to run the code on
      concrete inputs.
    - Printing, the file system and the sequence of trie method calls are the
      fields of [World]; code with effects lives in the monad [M], whose
      results are either a value or a raised exception.
    - A file is seen through [csv.reader]/[csv.writer]: its content is the
      list of rows, each row the list of its fields. *)

From Stdlib Require Import String Ascii List Bool Arith ZArith Lia.
From Stdlib Require Import Sorted Permutation DecimalString OrderedTypeEx.
Import ListNotations.
Local Open Scope string_scope.
Local Open Scope list_scope.
#[local] Set Warnings "-register-all".

(** ** Python builtins *)

Class Builtins : Type := {
  (** Python's [float] values. *)
  float : Type;
  (** The literal [0.0]. *)
  float_zero : float;
  (** [a <= b] on floats. *)
  float_leb : float -> float -> bool;
  (** [float(s)]: [None] stands for [ValueError]. *)
  float_of_str : string -> option float;
  (** [str(x)] for a float [x], as [csv.writer] stringifies a field. *)
  str_of_float : float -> string;
  (** [int(s)]: [None] stands for [ValueError]. *)
  int_of_str : string -> option Z;
  (** [s.strip()], [s.lower()], [s.split()]. *)
  str_strip : string -> string;
  str_lower : string -> string;
  str_split : string -> list string;
  (** [str(Path(s))]. *)
  str_of_path : string -> string
}.

(** ** Exceptions, the world and the monad of effects *)

Inductive exn : Type :=
| FileNotFoundError (msg : string)
| OSError (msg : string)
| IndexError (msg : string)
| ValueError (msg : string)
| TypeError (msg : string)
| OtherException (msg : string).

Definition exn_msg (e : exn) : string :=
  match e with
  | FileNotFoundError m | OSError m | IndexError m
  | ValueError m | TypeError m | OtherException m => m
  end.

(** [isinstance(e, OSError)]: [FileNotFoundError] is a subclass, [IOError]
    an alias. *)
Definition is_OSError (e : exn) : bool :=
  match e with
  | FileNotFoundError _ | OSError _ => true
  | _ => false
  end.

Inductive result (A : Type) : Type :=
| Ok (a : A)
| Raise (e : exn).
Arguments Ok {A} a.
Arguments Raise {A} e.

(** What opening a path for reading and iterating [csv.reader] over it
    gives: the rows, or the exception raised on the way. *)
Inductive file_read : Type :=
| ReadRows (rows : list (list string))
| ReadRaises (e : exn).

Section Tool.

Context {B : Builtins}.

(** ** The prefix trie *)

(** Modelled from the spec: src/trie.py (class Trie, imported by src/app.py)
    is not among the source files.  A node carries its children keyed by
    character, the end-of-word mark and the weight (spec section 3).  The
    children are an association list in insertion order, as a Python dict
    keeps them. *)
Inductive Node : Type :=
  mkNode { children : list (ascii * Node); is_word : bool; weight : float }.

(** Induction on nodes, through the list of children. *)
Fixpoint Node_nested_ind (P : Node -> Prop)
    (P_node : forall cs w x,
        Forall (fun p => P (snd p)) cs -> P (mkNode cs w x))
    (n : Node) : P n :=
  match n with
  | mkNode cs w x =>
      P_node cs w x
        ((fix over (cs : list (ascii * Node))
            : Forall (fun p => P (snd p)) cs :=
            match cs with
            | [] => Forall_nil _
            | p :: cs' =>
                Forall_cons p (Node_nested_ind P P_node (snd p)) (over cs')
            end) cs)
  end.

Definition Trie : Type := Node.

(** Modelled from the spec: [Trie()], the root alone. *)
Definition Trie_new : Trie := mkNode [] false float_zero.

Fixpoint child (c : ascii) (cs : list (ascii * Node)) : option Node :=
  match cs with
  | [] => None
  | (c', n) :: cs' => if Ascii.eqb c c' then Some n else child c cs'
  end.

Fixpoint set_child (c : ascii) (n : Node) (cs : list (ascii * Node))
  : list (ascii * Node) :=
  match cs with
  | [] => [(c, n)]
  | (c', n') :: cs' =>
      if Ascii.eqb c c' then (c, n) :: cs' else (c', n') :: set_child c n cs'
  end.

Fixpoint del_child (c : ascii) (cs : list (ascii * Node))
  : list (ascii * Node) :=
  match cs with
  | [] => []
  | (c', n') :: cs' =>
      if Ascii.eqb c c' then cs' else (c', n') :: del_child c cs'
  end.

(** Modelled from the spec: [insert(word, weight)] walks or creates one node
    per character and marks the last one, overwriting its weight.  On the
    empty word the walk is empty and the root itself is marked (the spec
    leaves that case to the implementation). *)
Fixpoint Trie_insert (word : string) (x : float) (n : Node) : Node :=
  match word with
  | EmptyString => mkNode (children n) true x
  | String c word' =>
      let sub := match child c (children n) with
                 | Some ch => ch
                 | None => Trie_new
                 end in
      mkNode (set_child c (Trie_insert word' x sub) (children n))
             (is_word n) (weight n)
  end.

(** The node at the end of a path, if the path exists. *)
Fixpoint find_node (path : string) (n : Node) : option Node :=
  match path with
  | EmptyString => Some n
  | String c path' =>
      match child c (children n) with
      | Some ch => find_node path' ch
      | None => None
      end
  end.

(** The weight stored for a word, if the word is stored. *)
Definition Trie_lookup (word : string) (t : Trie) : option float :=
  match find_node word t with
  | Some n => if is_word n then Some (weight n) else None
  | None => None
  end.

(** Modelled from the spec: [contains(word)]. *)
Definition Trie_contains (word : string) (t : Trie) : bool :=
  match find_node word t with
  | Some n => is_word n
  | None => false
  end.

Definition is_dead (n : Node) : bool :=
  match children n with
  | [] => negb (is_word n)
  | _ :: _ => false
  end.

(** Modelled from the spec: [remove(word)] below a node; [None] when the
    word is absent.  The unmarked node loses its weight, and on the way back
    every node left with no child and no mark is deleted from its parent. *)
Fixpoint remove_below (word : string) (n : Node) : option Node :=
  match word with
  | EmptyString =>
      if is_word n then Some (mkNode (children n) false float_zero) else None
  | String c word' =>
      match child c (children n) with
      | None => None
      | Some ch =>
          match remove_below word' ch with
          | None => None
          | Some ch' =>
              Some (mkNode (if is_dead ch' then del_child c (children n)
                            else set_child c ch' (children n))
                           (is_word n) (weight n))
          end
      end
  end.

(** Modelled from the spec: [remove(word)] returns whether the word was
    present; the root is never deleted. *)
Definition Trie_remove (word : string) (t : Trie) : bool * Trie :=
  match remove_below word t with
  | Some t' => (true, t')
  | None => (false, t)
  end.

(** Every stored word below a node with its weight, the path to the node
    being [pre]; depth first, a node before its children. *)
Fixpoint collect (pre : string) (n : Node) : list (string * float) :=
  match n with
  | mkNode cs w x =>
      (if w then [(pre, x)] else []) ++
      (fix over (cs : list (ascii * Node)) : list (string * float) :=
         match cs with
         | [] => []
         | (c, ch) :: cs' => collect (pre ++ String c "") ch ++ over cs'
         end) cs
  end.

(** The words below the children of a node. *)
Definition collect_children (pre : string) (cs : list (ascii * Node))
  : list (string * float) :=
  flat_map (fun p => collect (pre ++ String (fst p) "") (snd p)) cs.

(** Modelled from the spec: [items()]. *)
Definition Trie_items (t : Trie) : list (string * float) := collect "" t.

(** Ranking of completions: [a] comes no later than [b] when its weight is
    greater, or the weights tie and its word is lexicographically no
    greater. *)
Definition rank_leb (a b : string * float) : bool :=
  if float_leb (snd a) (snd b)
  then if float_leb (snd b) (snd a) then String.leb (fst a) (fst b) else false
  else true.

Fixpoint rank_insert (a : string * float) (l : list (string * float))
  : list (string * float) :=
  match l with
  | [] => [a]
  | b :: l' => if rank_leb a b then a :: b :: l' else b :: rank_insert a l'
  end.

Fixpoint rank_sort (l : list (string * float)) : list (string * float) :=
  match l with
  | [] => []
  | a :: l' => rank_insert a (rank_sort l')
  end.

(** Modelled from the spec: [complete(prefix, k)] enumerates the words below
    the node of the prefix, ranks them and keeps the first [k].  The spec
    asks for [k >= 0]; for a negative [k] the model returns nothing. *)
Definition Trie_complete (prefix : string) (k : Z) (t : Trie) : list string :=
  match find_node prefix t with
  | None => []
  | Some n => map fst (firstn (Z.to_nat k) (rank_sort (collect prefix n)))
  end.

Fixpoint word_count (n : Node) : nat :=
  match n with
  | mkNode cs w _ =>
      (if w then 1 else 0) +
      (fix over (cs : list (ascii * Node)) : nat :=
         match cs with
         | [] => 0
         | (_, ch) :: cs' => word_count ch + over cs'
         end) cs
  end.

Fixpoint node_count (n : Node) : nat :=
  match n with
  | mkNode cs _ _ =>
      S ((fix over (cs : list (ascii * Node)) : nat :=
            match cs with
            | [] => 0
            | (_, ch) :: cs' => node_count ch + over cs'
            end) cs)
  end.

Fixpoint height (n : Node) : nat :=
  match n with
  | mkNode cs _ _ =>
      (fix over (cs : list (ascii * Node)) : nat :=
         match cs with
         | [] => 0
         | (_, ch) :: cs' => Nat.max (S (height ch)) (over cs')
         end) cs
  end.

(** Modelled from the spec: [stats()] is (word_count, height, node_count). *)
Definition Trie_stats (t : Trie) : nat * nat * nat :=
  (word_count t, height t, node_count t).

(** Well-formed tries: the keys of the children of every node are distinct.
    [Trie()] is well formed, and [insert] and [remove] keep a trie so. *)
Inductive wf : Node -> Prop :=
| wf_node cs w x :
    NoDup (map fst cs) ->
    (forall c ch, In (c, ch) cs -> wf ch) ->
    wf (mkNode cs w x).

(** The operations that change a trie, and the trie after a sequence of
    them. *)
Inductive trie_op : Type :=
| OpInsert (word : string) (x : float)
| OpRemove (word : string).

Definition apply_op (t : Trie) (op : trie_op) : Trie :=
  match op with
  | OpInsert word x => Trie_insert word x t
  | OpRemove word => snd (Trie_remove word t)
  end.

Definition apply_ops (ops : list trie_op) (t : Trie) : Trie :=
  fold_left apply_op ops t.

(** The trie stores exactly the pairs of [items]. *)
Definition stores (t : Trie) (items : list (string * float)) : Prop :=
  forall w x, Trie_lookup w t = Some x <-> In (w, x) items.

(** [l] lists, each once and in rank order, the stored words that have the
    prefix [p], with their weights. *)
Definition ranked_matches (t : Trie) (p : string)
    (l : list (string * float)) : Prop :=
  (forall w x, In (w, x) l
               <-> Trie_lookup w t = Some x /\ String.prefix p w = true)
  /\ NoDup (map fst l)
  /\ StronglySorted (fun a b => rank_leb a b = true) l.

(** ** Effects *)

(** The calls the tool makes on trie objects, in the order it makes them. *)
Inductive trie_call : Type :=
| CallNew
| CallInsert (word : string) (x : float)
| CallRemove (word : string)
| CallContains (word : string)
| CallComplete (prefix : string) (k : Z)
| CallItems
| CallStats.

Record World : Type := mkWorld {
  (** what reading each path gives *)
  files : string -> file_read;
  (** the exception opening each path for writing raises, if any *)
  write_raises : string -> option exn;
  (** the lines printed on standard output and on standard error *)
  stdout : list string;
  stderr : list string;
  (** the trie method calls made so far *)
  calls : list trie_call
}.

Definition M (A : Type) : Type := World -> result A * World.

Definition ret {A} (a : A) : M A := fun w => (Ok a, w).

Definition bind {A C} (m : M A) (k : A -> M C) : M C :=
  fun w =>
    match m w with
    | (Ok a, w') => k a w'
    | (Raise e, w') => (Raise e, w')
    end.

Definition raise {A} (e : exn) : M A := fun w => (Raise e, w).

(** [try: m  except ...: h e]; [h] re-raises what no clause catches. *)
Definition try_except {A} (m : M A) (h : exn -> M A) : M A :=
  fun w =>
    match m w with
    | (Ok a, w') => (Ok a, w')
    | (Raise e, w') => h e w'
    end.

Notation "x <- m ;; k" := (bind m (fun x => k))
  (at level 61, m at next level, right associativity).
Notation "m ;;; k" := (bind m (fun _ => k))
  (at level 61, right associativity).

Definition print (line : string) : M unit :=
  fun w => (Ok tt, mkWorld (files w) (write_raises w)
                           (stdout w ++ [line]) (stderr w) (calls w)).

Definition eprint (line : string) : M unit :=
  fun w => (Ok tt, mkWorld (files w) (write_raises w)
                           (stdout w) (stderr w ++ [line]) (calls w)).

Definition log (c : trie_call) : M unit :=
  fun w => (Ok tt, mkWorld (files w) (write_raises w)
                           (stdout w) (stderr w) (calls w ++ [c])).

Definition write_file (path : string) (rows : list (list string)) : M unit :=
  fun w => (Ok tt, mkWorld (fun p => if p =? path then ReadRows rows
                                     else files w p)
                           (write_raises w) (stdout w) (stderr w) (calls w)).

(** The trie methods as the tool calls them: each call is logged.  A method
    that mutates the trie returns the trie after the call. *)
Definition new_trie : M Trie := log CallNew ;;; ret Trie_new.

Definition trie_insert (t : Trie) (word : string) (x : float) : M Trie :=
  log (CallInsert word x) ;;; ret (Trie_insert word x t).

Definition trie_remove (t : Trie) (word : string) : M (bool * Trie) :=
  log (CallRemove word) ;;; ret (Trie_remove word t).

Definition trie_contains (t : Trie) (word : string) : M bool :=
  log (CallContains word) ;;; ret (Trie_contains word t).

Definition trie_complete (t : Trie) (prefix : string) (k : Z)
  : M (list string) :=
  log (CallComplete prefix k) ;;; ret (Trie_complete prefix k t).

Definition trie_items (t : Trie) : M (list (string * float)) :=
  log CallItems ;;; ret (Trie_items t).

Definition trie_stats (t : Trie) : M (nat * nat * nat) :=
  log CallStats ;;; ret (Trie_stats t).

(** ** src/io_utils.py *)

(** The score of a row of [load_csv]: [0.0], replaced by [float(row[1])]
    when the row has a second field and it parses. *)
Definition row_score (row : list string) : float :=
  if (1 <? length row)%nat
  then match float_of_str (nth 1 row "") with
       | Some x => x
       | None => float_zero
       end
  else float_zero.

(** The loop of [load_csv] over the rows of the reader, appending to
    [results]. *)
Fixpoint load_rows (rows : list (list string))
    (results : list (string * float)) : list (string * float) :=
  match rows with
  | [] => results
  | row :: rest =>
      match row with
      | [] => load_rows rest results
      | raw_word :: _ =>
          let word := str_lower (str_strip raw_word) in
          load_rows rest (results ++ [(word, row_score row)])
      end
  end.

Definition load_csv (path : string) : M (list (string * float)) :=
  fun w =>
    match files w path with
    | ReadRows rows => ret (load_rows rows []) w
    | ReadRaises (FileNotFoundError _) =>
        (print ("ERROR: File not found at " ++ str_of_path path) ;;;
         ret []) w
    | ReadRaises e =>
        (print ("ERROR: Could not read " ++ str_of_path path ++ ": "
                ++ exn_msg e) ;;;
         ret []) w
    end.

(** The record [writer.writerow([word, score])] writes. *)
Definition csv_record (item : string * float) : list string :=
  [fst item; str_of_float (snd item)].

Definition save_csv (path : string) (items : list (string * float))
  : M unit :=
  fun w =>
    match write_raises w path with
    | None => write_file path (map csv_record items) w
    | Some e =>
        if is_OSError e
        then print ("ERROR: Could not write to file " ++ str_of_path path
                    ++ ": " ++ exn_msg e) w
        else raise e w
    end.

(** ** src/app.py *)

(** The loop of [load_command]: one [insert] per pair. *)
Fixpoint insert_all (t : Trie) (pairs : list (string * float)) : M Trie :=
  match pairs with
  | [] => ret t
  | (word, score) :: rest =>
      t' <- trie_insert t word score ;;
      insert_all t' rest
  end.

Definition load_command (trie : Trie) (path_str : string) : M Trie :=
  pairs <- load_csv path_str ;;
  t0 <- new_trie ;;
  insert_all t0 pairs.

Definition save_command (trie : Trie) (path_str : string) : M unit :=
  items <- trie_items trie ;;
  save_csv path_str items.

Definition py_float (s : string) : M float :=
  match float_of_str s with
  | Some x => ret x
  | None => raise (ValueError ("could not convert string to float: " ++ s))
  end.

Definition py_int (s : string) : M Z :=
  match int_of_str s with
  | Some k => ret k
  | None => raise (ValueError ("invalid literal for int() with base 10: " ++ s))
  end.

Definition insert_command (trie : Trie) (word freq_str : string) : M Trie :=
  freq <- py_float freq_str ;;
  trie_insert trie (str_lower word) freq.

Definition remove_command (trie : Trie) (word : string) : M Trie :=
  r <- trie_remove trie (str_lower word) ;;
  print (if fst r then "OK" else "MISS") ;;;
  ret (snd r).

Definition contains_command (trie : Trie) (word : string) : M unit :=
  b <- trie_contains trie (str_lower word) ;;
  print (if b then "YES" else "NO").

Definition complete_command (trie : Trie) (prefix k_str : string) : M unit :=
  k <- py_int k_str ;;
  results <- trie_complete trie (str_lower prefix) k ;;
  print (String.concat "," results).

Definition str_of_nat (n : nat) : string :=
  NilZero.string_of_uint (Nat.to_uint n).

Definition stats_command (trie : Trie) : M unit :=
  s <- trie_stats trie ;;
  let '(words, height, nodes) := s in
  print ("words=" ++ str_of_nat words ++ " height=" ++ str_of_nat height
         ++ " nodes=" ++ str_of_nat nodes).

(** The body of the [try] of [parse_and_execute]: [Some r] when a branch
    returns [r], [None] when control falls off its end. *)
Definition dispatch (cmd : string) (parts : list string) (trie : Trie)
  : M (option (bool * Trie)) :=
  if cmd =? "quit" then ret (Some (false, trie))
  else if (cmd =? "load") && (length parts =? 2)%nat then
    trie' <- load_command trie (nth 1 parts "") ;;
    ret (Some (true, trie'))
  else if (cmd =? "save") && (length parts =? 2)%nat then
    save_command trie (nth 1 parts "") ;;;
    ret (Some (true, trie))
  else if (cmd =? "insert") && (length parts =? 3)%nat then
    trie' <- insert_command trie (nth 1 parts "") (nth 2 parts "") ;;
    ret (Some (true, trie'))
  else if (cmd =? "remove") && (length parts =? 2)%nat then
    trie' <- remove_command trie (nth 1 parts "") ;;
    ret (Some (true, trie'))
  else if (cmd =? "contains") && (length parts =? 2)%nat then
    contains_command trie (nth 1 parts "") ;;;
    ret (Some (true, trie))
  else if (cmd =? "complete") && (length parts =? 3)%nat then
    complete_command trie (nth 1 parts "") (nth 2 parts "") ;;;
    ret (Some (true, trie))
  else if (cmd =? "stats") && (length parts =? 1)%nat then
    stats_command trie ;;;
    ret (Some (true, trie))
  else ret None.

(** The [except] clauses of [parse_and_execute], in their order; after a
    handled exception control falls to the end of the function. *)
Definition handlers (parts : list string) (e : exn)
  : M (option (bool * Trie)) :=
  match e with
  | FileNotFoundError _ =>
      match nth_error parts 1 with
      | Some p => eprint ("ERROR: File not found at " ++ p) ;;; ret None
      | None => raise (IndexError "list index out of range")
      end
  | OSError m =>
      eprint ("ERROR: Could not read/write file. " ++ m) ;;; ret None
  | IndexError _ | ValueError _ | TypeError _ => ret None
  | OtherException _ => raise e
  end.

Definition parse_and_execute (line : string) (trie : Trie)
  : M (bool * Trie) :=
  let line := str_strip line in
  if line =? "" then ret (true, trie)
  else
    let parts := str_split line in
    match parts with
    | [] => ret (true, trie)
    | p0 :: _ =>
        let cmd := str_lower p0 in
        r <- try_except (dispatch cmd parts trie) (handlers parts) ;;
        match r with
        | Some res => ret res
        | None => ret (true, trie)
        end
    end.

(** The loop of [main] over the lines of standard input, from the trie it
    holds; it returns the trie the loop variable holds when it ends. *)
Fixpoint main_loop (stdin : list string) (trie : Trie) : M Trie :=
  match stdin with
  | [] => ret trie
  | raw :: rest =>
      r <- parse_and_execute raw trie ;;
      if fst r then main_loop rest (snd r) else ret (snd r)
  end.

Definition main (stdin : list string) : M unit :=
  trie <- new_trie ;;
  main_loop stdin trie ;;;
  ret tt.

(** ** Vocabulary of the statements about the tool *)

(** The words of a line, as [parse_and_execute] splits it. *)
Definition tokens (line : string) : list string :=
  str_split (str_strip line).

(** The commands of the module docstring of src/app.py, each with the number
    of words of a line that invokes it. *)
Definition usage : list (string * nat) :=
  [("load", 2); ("save", 2); ("insert", 3); ("remove", 2);
   ("contains", 2); ("complete", 3); ("stats", 1); ("quit", 1)].

Fixpoint usage_of (cmd : string) (table : list (string * nat)) : option nat :=
  match table with
  | [] => None
  | (name, n) :: table' => if cmd =? name then Some n else usage_of cmd table'
  end.

(** A line that is not a well-formed command: empty, of an unknown command,
    with the wrong number of arguments, or with a frequency or a [k] that
    is not a number. *)
Definition malformed (line : string) : bool :=
  let parts := tokens line in
  let cmd := str_lower (hd "" parts) in
  (str_strip line =? "")
  || match parts with [] => true | _ :: _ => false end
  || match usage_of cmd usage with
     | None => true
     | Some n =>
         negb (length parts =? n)%nat
         || (cmd =? "insert")
            && match float_of_str (nth 2 parts "") with
               | None => true
               | Some _ => false
               end
         || (cmd =? "complete")
            && match int_of_str (nth 2 parts "") with
               | None => true
               | Some _ => false
               end
     end.

(** The rows of a file that [load_csv] does not skip. *)
Definition nonblank (row : list string) : bool :=
  match row with
  | [] => false
  | _ :: _ => true
  end.

(** The string a call hands to the trie is the lower-casing of some
    string. *)
Definition lowered (c : trie_call) : Prop :=
  match c with
  | CallInsert s _ | CallRemove s | CallContains s | CallComplete s _ =>
      exists u, s = str_lower u
  | CallNew | CallItems | CallStats => True
  end.

(** The trie after the [insert]s of [pairs], in order. *)
Definition insert_pairs (pairs : list (string * float)) (t : Trie) : Trie :=
  fold_left (fun tr p => Trie_insert (fst p) (snd p) tr) pairs t.

(** The world after more calls, more lines on standard output, or a file
    written. *)
Definition logged (cs : list trie_call) (w : World) : World :=
  mkWorld (files w) (write_raises w) (stdout w) (stderr w) (calls w ++ cs).

Definition printed (lines : list string) (w : World) : World :=
  mkWorld (files w) (write_raises w) (stdout w ++ lines) (stderr w) (calls w).

Definition written (path : string) (rows : list (list string)) (w : World)
  : World :=
  mkWorld (fun p => if p =? path then ReadRows rows else files w p)
          (write_raises w) (stdout w) (stderr w) (calls w).

(** The [insert] calls of a list of pairs. *)
Definition insert_calls (pairs : list (string * float)) : list trie_call :=
  map (fun p => CallInsert (fst p) (snd p)) pairs.

(** The line is not empty and its first word, lower-cased, is [quit]. *)
Definition names_quit (line : string) : bool :=
  negb (str_strip line =? "")
  && match tokens line with
     | [] => false
     | p0 :: _ => str_lower p0 =? "quit"
     end.

(** The exceptions the last [except] clause of [parse_and_execute] names. *)
Definition swallowed (e : exn) : bool :=
  match e with
  | IndexError _ | ValueError _ | TypeError _ => true
  | _ => false
  end.

(** What [load_csv] makes of a pair that [save_csv] wrote. *)
Definition reloaded (item : string * float) : string * float :=
  (str_lower (str_strip (fst item)),
   match float_of_str (str_of_float (snd item)) with
   | Some x => x
   | None => float_zero
   end).

(** The first word of the line, lower-cased, is [cmd] and the line has [n]
    words. *)
Definition invokes (line cmd : string) (n : nat) : Prop :=
  str_strip line <> ""
  /\ exists p0 rest,
       tokens line = p0 :: rest /\ str_lower p0 = cmd
       /\ length (p0 :: rest) = n.

End Tool.

(** ** A sample of the builtins

    An instance of [Builtins] on which the code runs: text is ASCII, and a
    float is integer-valued and written as a plain decimal integer literal
    (optionally signed), which [float] and [int] read alike.  On such inputs
    the fields agree with Python; what they do elsewhere is not relied on. *)
Module Sample.

Definition is_space (c : ascii) : bool :=
  let n := nat_of_ascii c in
  ((9 <=? n) && (n <=? 13) || (28 <=? n) && (n <=? 32))%nat.

Fixpoint lstrip (s : string) : string :=
  match s with
  | EmptyString => EmptyString
  | String c s' => if is_space c then lstrip s' else s
  end.

Fixpoint rstrip (s : string) : string :=
  match s with
  | EmptyString => EmptyString
  | String c s' =>
      match rstrip s' with
      | EmptyString => if is_space c then EmptyString else String c EmptyString
      | r => String c r
      end
  end.

Definition strip (s : string) : string := rstrip (lstrip s).

Definition lower_char (c : ascii) : ascii :=
  let n := nat_of_ascii c in
  if ((65 <=? n) && (n <=? 90))%nat then ascii_of_nat (n + 32) else c.

Fixpoint lower (s : string) : string :=
  match s with
  | EmptyString => EmptyString
  | String c s' => String (lower_char c) (lower s')
  end.

(** [split_from cur s]: the fields of [s] when [cur] is the field read so
    far, in reverse. *)
Fixpoint split_from (cur : list ascii) (s : string) : list string :=
  let flush := match cur with
               | [] => []
               | _ :: _ => [string_of_list_ascii (rev cur)]
               end in
  match s with
  | EmptyString => flush
  | String c s' =>
      if is_space c then flush ++ split_from [] s'
      else split_from (c :: cur) s'
  end.

Definition split (s : string) : list string := split_from [] s.

Definition digit (c : ascii) : option Z :=
  let n := nat_of_ascii c in
  if ((48 <=? n) && (n <=? 57))%nat then Some (Z.of_nat (n - 48)) else None.

Fixpoint digits (acc : Z) (s : string) : option Z :=
  match s with
  | EmptyString => Some acc
  | String c s' =>
      match digit c with
      | Some d => digits (10 * acc + d) s'
      | None => None
      end
  end.

Definition unsigned (s : string) : option Z :=
  match s with
  | EmptyString => None
  | String _ _ => digits 0 s
  end.

Definition integer (s : string) : option Z :=
  match s with
  | String "-" s' => option_map Z.opp (unsigned s')
  | String "+" s' => unsigned s'
  | _ => unsigned s
  end.

Definition str_of_Z (z : Z) : string := NilZero.string_of_int (Z.to_int z).

#[global] Instance builtins : Builtins := {|
  float := Z;
  float_zero := 0%Z;
  float_leb := Z.leb;
  float_of_str := integer;
  str_of_float := fun z => (str_of_Z z ++ ".0")%string;
  int_of_str := integer;
  str_strip := strip;
  str_lower := lower;
  str_split := split;
  str_of_path := fun p => p
|}.

(** A world whose only file is [path], holding [rows]; nothing printed, no
    call made, every path writable. *)
Definition world_with (path : string) (rows : list (list string)) : World :=
  mkWorld (fun p => if p =? path then ReadRows rows
                    else ReadRaises (FileNotFoundError "No such file or directory"))
          (fun _ => None) [] [] [].

Definition empty_world : World :=
  mkWorld (fun _ => ReadRaises (FileNotFoundError "No such file or directory"))
          (fun _ => None) [] [] [].

(** The trie of the words cat (5), car (3) and can (5). *)
Definition cat_car_can : Trie :=
  Trie_insert "can" 5%Z (Trie_insert "car" 3%Z (Trie_insert "cat" 5%Z Trie_new)).

End Sample.

(** A second sample of the builtins, equal to [Sample.builtins] but for
    [float], which also reads the literals [str] writes: a decimal integer
    followed by [.0]. *)
Module Decimal.

Fixpoint drop_point_zero (s : string) : string :=
  match s with
  | EmptyString => EmptyString
  | String c s' =>
      if (s =? ".0") then EmptyString else String c (drop_point_zero s')
  end.

Definition float_literal (s : string) : option Z :=
  Sample.integer (drop_point_zero s).

Definition builtins : Builtins := {|
  float := Z;
  float_zero := 0%Z;
  float_leb := Z.leb;
  float_of_str := float_literal;
  str_of_float := fun z => (Sample.str_of_Z z ++ ".0")%string;
  int_of_str := Sample.integer;
  str_strip := Sample.strip;
  str_lower := Sample.lower;
  str_split := Sample.split;
  str_of_path := fun p => p
|}.

(** Two pairs of a trie, and a world with no file where every path can be
    written. *)
Definition items : list (string * @float builtins) :=
  [("cat", 5%Z); ("car", (-3)%Z)].

Definition empty_world : @World builtins :=
  mkWorld (fun _ => ReadRaises (FileNotFoundError "No such file or directory"))
          (fun _ => None) [] [] [].

End Decimal.

(** A world with no file in which opening any path for writing raises [e]. *)
Definition unwritable_world (e : exn) : World :=
  mkWorld (fun _ => ReadRaises (FileNotFoundError "No such file or directory"))
          (fun _ => Some e) [] [] [].

(** * Facts about strings and association lists *)

Lemma append_empty_r (s : string) : (s ++ "")%string = s.
Proof. induction s as [|c s IH]; simpl; [reflexivity | now rewrite IH]. Qed.

Lemma append_assoc (a b c : string) :
  ((a ++ b) ++ c)%string = (a ++ (b ++ c))%string.
Proof. induction a as [|x a IH]; simpl; [reflexivity | now rewrite IH]. Qed.

Lemma append_inj_l (a b c : string) :
  (a ++ b)%string = (a ++ c)%string -> b = c.
Proof.
  induction a as [|x a IH]; simpl; intros E; [exact E |].
  injection E as E. auto.
Qed.

Lemma append_char (pre : string) (c : ascii) (s : string) :
  ((pre ++ String c "") ++ s)%string = (pre ++ String c s)%string.
Proof. now rewrite append_assoc. Qed.

Lemma prefix_iff (p w : string) :
  String.prefix p w = true <-> exists s, w = (p ++ s)%string.
Proof.
  revert w. induction p as [|c p IH]; intros w; simpl.
  - destruct w; split; eauto.
  - destruct w as [|d w].
    + split; [discriminate | intros [s E]; discriminate].
    + simpl. destruct (ascii_dec c d) as [->|N]; split.
      * intros H. apply IH in H as [s ->]. now exists s.
      * intros [s E]. injection E as E. apply IH. now exists s.
      * discriminate.
      * intros [s E]. injection E as E1 E2. congruence.
Qed.

Lemma string_leb_iff (a b : string) :
  String.leb a b = true <-> a = b \/ String_as_OT.lt a b.
Proof.
  unfold String.leb.
  destruct (String.compare a b) eqn:E; split; intros H; try reflexivity.
  - left. now apply String_as_OT.cmp_eq.
  - right. now apply String_as_OT.cmp_lt.
  - discriminate.
  - destruct H as [->|H].
    + assert (String_as_OT.cmp b b = Eq) as E' by now apply String_as_OT.cmp_eq.
      unfold String_as_OT.cmp in E'. congruence.
    + apply String_as_OT.cmp_lt in H. unfold String_as_OT.cmp in H. congruence.
Qed.

Lemma string_leb_trans (a b c : string) :
  String.leb a b = true -> String.leb b c = true -> String.leb a c = true.
Proof.
  rewrite !string_leb_iff. intros [->|H1] [->|H2]; auto.
  right. eapply String_as_OT.lt_trans; eassumption.
Qed.

Lemma string_leb_refl (a : string) : String.leb a a = true.
Proof. apply string_leb_iff. now left. Qed.

Section TrieFacts.

Context {B : Builtins}.

(** ** Children of a node *)

Lemma child_In (c : ascii) (cs : list (ascii * Node)) (n : Node) :
  child c cs = Some n -> In (c, n) cs.
Proof.
  induction cs as [|[c' n'] cs IH]; simpl; [discriminate |].
  destruct (Ascii.eqb_spec c c') as [->|N]; intros E.
  - injection E as ->. now left.
  - right. auto.
Qed.

Lemma In_child (c : ascii) (cs : list (ascii * Node)) (n : Node) :
  NoDup (map fst cs) -> In (c, n) cs -> child c cs = Some n.
Proof.
  induction cs as [|[c' n'] cs IH]; simpl; [tauto |].
  intros ND [E|I]; inversion ND as [|? ? NI ND']; subst.
  - injection E as -> ->. now rewrite Ascii.eqb_refl.
  - destruct (Ascii.eqb_spec c c') as [->|N]; [|auto].
    exfalso. apply NI. change c' with (fst (c', n)). now apply in_map.
Qed.

Lemma set_child_keys (c : ascii) (n : Node) (cs : list (ascii * Node)) :
  map fst (set_child c n cs)
  = if existsb (Ascii.eqb c) (map fst cs) then map fst cs
    else map fst cs ++ [c].
Proof.
  induction cs as [|[c' n'] cs IH]; simpl; [reflexivity |].
  destruct (Ascii.eqb_spec c c') as [->|N]; simpl; [reflexivity |].
  rewrite IH. now destruct (existsb _ _).
Qed.

Lemma set_child_NoDup (c : ascii) (n : Node) (cs : list (ascii * Node)) :
  NoDup (map fst cs) -> NoDup (map fst (set_child c n cs)).
Proof.
  intros ND. rewrite set_child_keys.
  destruct (existsb (Ascii.eqb c) (map fst cs)) eqn:E; [exact ND |].
  apply NoDup_app; [exact ND | repeat constructor; simpl; tauto |].
  intros a Ia [Ea|[]]. subst a.
  assert (existsb (Ascii.eqb c) (map fst cs) = true) as E'.
  { apply existsb_exists. exists c. split; [exact Ia | apply Ascii.eqb_refl]. }
  congruence.
Qed.

Lemma set_child_In (c : ascii) (n : Node) (cs : list (ascii * Node))
    (d : ascii) (m : Node) :
  In (d, m) (set_child c n cs) -> (d, m) = (c, n) \/ In (d, m) cs.
Proof.
  induction cs as [|[c' n'] cs IH]; simpl.
  - intros [E|[]]. now left.
  - destruct (Ascii.eqb c c'); simpl; intros [E|I]; auto.
    destruct (IH I); auto.
Qed.

Lemma del_child_In (c : ascii) (cs : list (ascii * Node))
    (d : ascii) (m : Node) :
  In (d, m) (del_child c cs) -> In (d, m) cs.
Proof.
  induction cs as [|[c' n'] cs IH]; simpl; [tauto |].
  destruct (Ascii.eqb c c'); simpl; intros H; [now right |].
  destruct H; auto.
Qed.

Lemma del_child_NoDup (c : ascii) (cs : list (ascii * Node)) :
  NoDup (map fst cs) -> NoDup (map fst (del_child c cs)).
Proof.
  induction cs as [|[c' n'] cs IH]; simpl; [auto |].
  intros ND. inversion ND as [|? ? NI ND']; subst.
  destruct (Ascii.eqb c c'); simpl; [exact ND' |].
  constructor; [|auto].
  intros I. apply NI. apply in_map_iff in I as [[d m] [E I]].
  simpl in E. subst d. apply del_child_In in I.
  change c' with (fst (c', m)). now apply in_map.
Qed.

(** ** Well-formed tries *)

Lemma wf_children (n : Node) :
  wf n -> NoDup (map fst (children n))
          /\ forall c ch, In (c, ch) (children n) -> wf ch.
Proof. intros H. destruct H. simpl. auto. Qed.

Lemma wf_new : wf Trie_new.
Proof. constructor; simpl; [constructor | tauto]. Qed.

Lemma wf_insert (word : string) (x : float) (n : Node) :
  wf n -> wf (Trie_insert word x n).
Proof.
  revert n. induction word as [|c word IH]; intros n H; simpl.
  - destruct (wf_children n H). now constructor.
  - destruct (wf_children n H) as [ND Hc].
    constructor; [now apply set_child_NoDup |].
    intros d m I. apply set_child_In in I as [E|I]; [|eauto].
    injection E as -> ->. apply IH.
    destruct (child c (children n)) eqn:E; [|apply wf_new].
    apply child_In in E. eauto.
Qed.

Lemma wf_remove (word : string) (n : Node) :
  wf n -> wf (snd (Trie_remove word n)).
Proof.
  intros H. unfold Trie_remove.
  destruct (remove_below word n) as [n'|] eqn:E; simpl; [|exact H].
  revert n n' H E. induction word as [|c word IH]; intros n n' H E; simpl in E.
  - destruct (is_word n); [|discriminate]. injection E as <-.
    destruct (wf_children n H). now constructor.
  - destruct (wf_children n H) as [ND Hc].
    destruct (child c (children n)) as [ch|] eqn:Ec; [|discriminate].
    destruct (remove_below word ch) as [ch'|] eqn:Er; [|discriminate].
    injection E as <-.
    apply child_In in Ec.
    destruct (is_dead ch'); constructor.
    + now apply del_child_NoDup.
    + intros d m I. apply del_child_In in I. eauto.
    + now apply set_child_NoDup.
    + intros d m I. apply set_child_In in I as [E|I]; [|eauto].
      injection E as -> ->. eapply IH; [|exact Er]. eauto.
Qed.

(** Every trie built from [Trie()] by inserts and removes is well formed. *)
Lemma apply_ops_wf (ops : list trie_op) :
  forall t, wf t -> wf (apply_ops ops t).
Proof.
  induction ops as [|op ops IH]; intros t H; simpl; [exact H |].
  apply IH. destruct op; simpl; [now apply wf_insert | now apply wf_remove].
Qed.

Lemma wf_find_node (p : string) (t n : Node) :
  wf t -> find_node p t = Some n -> wf n.
Proof.
  revert t. induction p as [|c p IH]; intros t H E; simpl in E.
  - now injection E as <-.
  - destruct (child c (children t)) as [ch|] eqn:Ec; [|discriminate].
    apply child_In in Ec. destruct (wf_children t H) as [_ Hc]. eauto.
Qed.

(** ** Lookup along a path *)

Lemma find_node_app (p s : string) (t : Node) :
  find_node (p ++ s) t
  = match find_node p t with
    | Some n => find_node s n
    | None => None
    end.
Proof.
  revert t. induction p as [|c p IH]; intros t; simpl; [reflexivity |].
  destruct (child c (children t)); auto.
Qed.

Lemma lookup_app (p s : string) (t : Node) :
  Trie_lookup (p ++ s) t
  = match find_node p t with
    | Some n => Trie_lookup s n
    | None => None
    end.
Proof.
  unfold Trie_lookup. rewrite find_node_app. now destruct (find_node p t).
Qed.

Lemma lookup_cons (c : ascii) (s : string) (n : Node) :
  Trie_lookup (String c s) n
  = match child c (children n) with
    | Some ch => Trie_lookup s ch
    | None => None
    end.
Proof. unfold Trie_lookup. simpl. now destruct (child c (children n)). Qed.

Lemma contains_lookup (w : string) (t : Trie) :
  Trie_contains w t = true <-> exists x, Trie_lookup w t = Some x.
Proof.
  unfold Trie_contains, Trie_lookup.
  destruct (find_node w t) as [n|]; [destruct (is_word n) |]; split;
    try discriminate; eauto; intros [x E]; discriminate.
Qed.

(** ** The enumeration of the words below a node *)

Lemma collect_eq (pre : string) (n : Node) :
  collect pre n
  = (if is_word n then [(pre, weight n)] else [])
    ++ collect_children pre (children n).
Proof.
  destruct n as [cs w x]. simpl. f_equal. unfold collect_children.
  induction cs as [|[c ch] cs IH]; simpl; [reflexivity | now rewrite IH].
Qed.

(** Every stored word is enumerated. *)
Lemma collect_complete (s : string) :
  forall (pre : string) (n : Node) (x : float),
    Trie_lookup s n = Some x -> In ((pre ++ s)%string, x) (collect pre n).
Proof.
  induction s as [|c s IH]; intros pre n x E; rewrite collect_eq;
    apply in_or_app.
  - left. unfold Trie_lookup in E. simpl in E.
    destruct (is_word n); [|discriminate]. injection E as <-.
    rewrite append_empty_r. now left.
  - right. rewrite lookup_cons in E.
    destruct (child c (children n)) as [ch|] eqn:Ec; [|discriminate].
    apply in_flat_map. exists (c, ch). split; [now apply child_In |].
    simpl. rewrite <- append_char. now apply IH.
Qed.

(** Every enumerated word extends the path of the node. *)
Lemma collect_shape (n : Node) :
  forall pre w x, In (w, x) (collect pre n) -> exists s, w = (pre ++ s)%string.
Proof.
  induction n as [cs iw y IH] using Node_nested_ind.
  intros pre w x I. rewrite collect_eq in I. simpl in I.
  apply in_app_or in I as [I|I].
  - destruct iw; [|destruct I]. destruct I as [E|[]].
    injection E as <- _. exists "". now rewrite append_empty_r.
  - apply in_flat_map in I as [[c ch] [Ic I]]. simpl in I.
    rewrite Forall_forall in IH.
    destruct (IH _ Ic _ _ _ I) as [s ->].
    exists (String c s). apply append_char.
Qed.

Lemma collect_children_shape (pre : string) (cs : list (ascii * Node))
    (w : string) :
  In w (map fst (collect_children pre cs)) ->
  exists c s, In c (map fst cs) /\ w = (pre ++ String c s)%string.
Proof.
  intros I. apply in_map_iff in I as [[w' x] [E I]]. simpl in E. subst w'.
  apply in_flat_map in I as [[c ch] [Ic I]]. simpl in I.
  apply collect_shape in I as [s ->].
  exists c, s. split; [|apply append_char].
  change c with (fst (c, ch)). now apply in_map.
Qed.

(** In a well-formed trie every enumerated word is stored, with the weight
    it is enumerated with. *)
Lemma collect_sound (n : Node) :
  forall pre w x,
    wf n -> In (w, x) (collect pre n) ->
    exists s, w = (pre ++ s)%string /\ Trie_lookup s n = Some x.
Proof.
  induction n as [cs iw y IH] using Node_nested_ind.
  intros pre w x H I. rewrite collect_eq in I. simpl in I.
  destruct (wf_children _ H) as [ND Hc]. simpl in ND, Hc.
  apply in_app_or in I as [I|I].
  - destruct iw eqn:Ew; [|destruct I]. destruct I as [E|[]].
    injection E as <- <-. exists "". now rewrite append_empty_r.
  - apply in_flat_map in I as [[c ch] [Ic I]]. simpl in I.
    rewrite Forall_forall in IH.
    destruct (IH _ Ic _ _ _ (Hc _ _ Ic) I) as [s [-> E]].
    exists (String c s). split; [apply append_char |].
    rewrite lookup_cons. simpl. now rewrite (In_child c cs ch ND Ic).
Qed.

(** In a well-formed trie no word is enumerated twice. *)
Lemma collect_NoDup (n : Node) :
  forall pre, wf n -> NoDup (map fst (collect pre n)).
Proof.
  induction n as [cs iw y IH] using Node_nested_ind.
  intros pre H. rewrite collect_eq, map_app. simpl.
  destruct (wf_children _ H) as [ND Hc]. simpl in ND, Hc.
  apply NoDup_app.
  - destruct iw; simpl; repeat constructor. simpl. tauto.
  - clear H. induction cs as [|[c ch] cs IHcs]; simpl; [constructor |].
    inversion IH as [|? ? IHch IH']; subst.
    inversion ND as [|? ? NI ND']; subst.
    rewrite map_app. apply NoDup_app.
    + apply IHch. apply (Hc c ch). now left.
    + apply IHcs; auto. intros d m I. apply (Hc d m). now right.
    + intros w I1 I2.
      apply in_map_iff in I1 as [[w' x] [E I1]]. simpl in E. subst w'.
      apply collect_shape in I1 as [s ->].
      apply collect_children_shape in I2 as [d [s' [Id E]]].
      rewrite append_char in E. apply append_inj_l in E.
      injection E as -> _. simpl in NI. contradiction.
  - intros w I1 I2. destruct iw; [|destruct I1]. destruct I1 as [<-|[]].
    apply collect_children_shape in I2 as [d [s [_ E]]].
    rewrite <- (append_empty_r pre) in E at 1.
    apply append_inj_l in E. discriminate.
Qed.

(** The words enumerated below the node of a prefix are the stored words
    that have the prefix. *)
Lemma collect_prefix (t n : Node) (p w : string) (x : float) :
  wf t -> find_node p t = Some n ->
  In (w, x) (collect p n)
  <-> Trie_lookup w t = Some x /\ String.prefix p w = true.
Proof.
  intros H E. split.
  - intros I. apply collect_sound in I as [s [-> L]];
      [|eapply wf_find_node; eassumption].
    split; [now rewrite lookup_app, E | apply prefix_iff; eauto].
  - intros [L P]. apply prefix_iff in P as [s ->].
    rewrite lookup_app, E in L. now apply collect_complete.
Qed.

Lemma no_prefix_no_word (t : Node) (p w : string) (x : float) :
  find_node p t = None ->
  ~ (Trie_lookup w t = Some x /\ String.prefix p w = true).
Proof.
  intros E [L P]. apply prefix_iff in P as [s ->].
  rewrite lookup_app, E in L. discriminate.
Qed.

(** [items()] lists exactly the stored pairs. *)
Lemma items_stores (t : Trie) : wf t -> stores t (Trie_items t).
Proof.
  intros H w x. unfold Trie_items. split.
  - intros L. now apply (collect_complete w "" t x).
  - intros I. apply collect_sound in I as [s [-> L]]; auto.
Qed.

(** ** Ranking *)

Section Ranking.

Hypothesis float_leb_total :
  forall a b : float, float_leb a b = true \/ float_leb b a = true.

Hypothesis float_leb_trans :
  forall a b c : float,
    float_leb a b = true -> float_leb b c = true -> float_leb a c = true.

Lemma float_leb_refl (a : float) : float_leb a a = true.
Proof. destruct (float_leb_total a a); assumption. Qed.

Lemma rank_leb_total (a b : string * float) :
  rank_leb a b = true \/ rank_leb b a = true.
Proof.
  unfold rank_leb.
  destruct (float_leb (snd a) (snd b)) eqn:E1,
           (float_leb (snd b) (snd a)) eqn:E2; auto.
  apply String.leb_total.
Qed.

Lemma rank_leb_trans (a b c : string * float) :
  rank_leb a b = true -> rank_leb b c = true -> rank_leb a c = true.
Proof.
  unfold rank_leb.
  pose proof (float_leb_total (snd a) (snd b)) as Tab.
  pose proof (float_leb_total (snd b) (snd c)) as Tbc.
  pose proof (float_leb_trans (snd a) (snd c) (snd b)) as T1.
  pose proof (float_leb_trans (snd b) (snd a) (snd c)) as T2.
  pose proof (float_leb_trans (snd c) (snd b) (snd a)) as T3.
  pose proof (float_leb_trans (snd c) (snd a) (snd b)) as T4.
  destruct (float_leb (snd a) (snd b)), (float_leb (snd b) (snd a)),
           (float_leb (snd b) (snd c)), (float_leb (snd c) (snd b)),
           (float_leb (snd a) (snd c)), (float_leb (snd c) (snd a));
    intros H1 H2; try reflexivity; try discriminate;
    try (now apply (string_leb_trans _ _ _ H1 H2));
    try (specialize (T1 eq_refl eq_refl); discriminate);
    try (specialize (T2 eq_refl eq_refl); discriminate);
    try (specialize (T3 eq_refl eq_refl); discriminate);
    try (specialize (T4 eq_refl eq_refl); discriminate);
    destruct Tab; destruct Tbc; discriminate.
Qed.

Lemma rank_insert_perm (a : string * float) (l : list (string * float)) :
  Permutation (a :: l) (rank_insert a l).
Proof.
  induction l as [|b l IH]; simpl; [reflexivity |].
  destruct (rank_leb a b); [reflexivity |].
  rewrite perm_swap. now constructor.
Qed.

Lemma rank_sort_perm (l : list (string * float)) :
  Permutation l (rank_sort l).
Proof.
  induction l as [|a l IH]; simpl; [constructor |].
  rewrite <- rank_insert_perm. now constructor.
Qed.

Lemma rank_insert_sorted (a : string * float) (l : list (string * float)) :
  StronglySorted (fun a b => rank_leb a b = true) l ->
  StronglySorted (fun a b => rank_leb a b = true) (rank_insert a l).
Proof.
  induction l as [|b l IH]; simpl; intros S.
  - repeat constructor.
  - inversion S as [|? ? S' F]; subst.
    destruct (rank_leb a b) eqn:E.
    + constructor; [exact S |]. constructor; [exact E |].
      rewrite Forall_forall in *. intros c I.
      eapply rank_leb_trans; [exact E | auto].
    + constructor; [auto |].
      apply (Permutation_Forall (rank_insert_perm a l)).
      constructor; [|exact F].
      destruct (rank_leb_total a b); congruence.
Qed.

Lemma rank_sort_sorted (l : list (string * float)) :
  StronglySorted (fun a b => rank_leb a b = true) (rank_sort l).
Proof.
  induction l as [|a l IH]; simpl; [constructor |].
  now apply rank_insert_sorted.
Qed.

(** The ranked list of the matches exists and [complete] returns the words
    of its first [k] entries. *)
Lemma complete_ranked (t : Trie) (p : string) (k : nat) :
  wf t ->
  exists l, ranked_matches t p l
            /\ Trie_complete p (Z.of_nat k) t = map fst (firstn k l).
Proof.
  intros H. unfold Trie_complete. rewrite Nat2Z.id.
  destruct (find_node p t) as [n|] eqn:E.
  - exists (rank_sort (collect p n)). split; [|reflexivity].
    pose proof (rank_sort_perm (collect p n)) as Pm.
    split; [|split].
    + intros w x. rewrite <- (collect_prefix t n p w x H E).
      split; apply Permutation_in; [symmetry|]; exact Pm.
    + apply (Permutation_NoDup (Permutation_map fst Pm)).
      apply collect_NoDup. eapply wf_find_node; eassumption.
    + apply rank_sort_sorted.
  - exists []. split; [|now destruct k].
    split; [|split]; [|constructor|constructor].
    intros w x. split; [intros [] |].
    intros I. exfalso. eapply no_prefix_no_word; eassumption.
Qed.

(** A list that is sorted for a relation antisymmetric on its members, and
    has no repetition, is determined by its members. *)
Lemma sorted_unique {A : Type} (R : A -> A -> Prop) (l1 : list A) :
  forall l2,
    StronglySorted R l1 -> StronglySorted R l2 ->
    NoDup l1 -> NoDup l2 ->
    (forall a, In a l1 <-> In a l2) ->
    (forall a b, In a l1 -> In b l1 -> R a b -> R b a -> a = b) ->
    l1 = l2.
Proof.
  induction l1 as [|a1 l1 IH]; intros [|a2 l2] S1 S2 N1 N2 Mem Anti.
  - reflexivity.
  - exfalso. apply (Mem a2). now left.
  - exfalso. apply (Mem a1). now left.
  - inversion S1 as [|? ? S1' F1]; inversion S2 as [|? ? S2' F2]; subst.
    inversion N1 as [|? ? NI1 N1']; inversion N2 as [|? ? NI2 N2']; subst.
    rewrite Forall_forall in F1, F2.
    assert (a1 = a2) as ->.
    { destruct (proj1 (Mem a1) (or_introl eq_refl)) as [E|I2]; [auto |].
      destruct (proj2 (Mem a2) (or_introl eq_refl)) as [E|I1]; [auto |].
      apply Anti; simpl; auto. }
    f_equal. apply IH; auto.
    + intros a. split; intros I.
      * destruct (proj1 (Mem a) (or_intror I)) as [E|I']; [|exact I'].
        subst a. contradiction.
      * destruct (proj2 (Mem a) (or_intror I)) as [E|I']; [|exact I'].
        subst a. contradiction.
    + intros a b Ia Ib. apply Anti; now right.
Qed.

(** The ranked list of the matches is unique: the result of [complete] is
    determined by the stored pairs. *)
Lemma ranked_matches_unique (t : Trie) (p : string)
    (l1 l2 : list (string * float)) :
  ranked_matches t p l1 -> ranked_matches t p l2 -> l1 = l2.
Proof.
  intros [M1 [N1 S1]] [M2 [N2 S2]].
  apply (sorted_unique (fun a b => rank_leb a b = true)); auto.
  - eapply NoDup_map_inv; eassumption.
  - eapply NoDup_map_inv; eassumption.
  - intros [w x]. now rewrite M1, M2.
  - intros [w x] [w' x'] I I' R R'.
    apply M1 in I as [L _]. apply M1 in I' as [L' _].
    unfold rank_leb in R, R'. simpl in R, R'.
    destruct (float_leb_total x x') as [T|T]; rewrite T in R, R';
      destruct (float_leb x' x), (float_leb x x'); try discriminate;
      assert (w = w') by (now apply String.leb_antisym);
      subst w'; congruence.
Qed.

End Ranking.

Lemma firstn_incl {A : Type} (k : nat) (l : list A) (a : A) :
  In a (firstn k l) -> In a l.
Proof.
  intros I. rewrite <- (firstn_skipn k l). apply in_or_app. now left.
Qed.

Lemma firstn_NoDup {A : Type} (k : nat) (l : list A) :
  NoDup l -> NoDup (firstn k l).
Proof.
  intros N. rewrite <- (firstn_skipn k l) in N.
  eapply NoDup_app_remove_r. exact N.
Qed.

(** C1. For every well-formed trie, every prefix [p] and every [k >= 0],
    [complete(p, k)] returns at most [k] words, none twice, each a stored
    word having [p] as a prefix, and they are the first [k] entries of the
    list of all such words ranked by descending weight, ties broken by
    ascending lexicographic order of the word.  In particular, when exactly
    cat, car and can are stored, car with a weight below that of cat and
    can, [complete("ca", 3)] is can, cat, car.  Every trie built from
    [Trie()] by inserts and removes is well formed.  The comparison of
    weights is assumed total and transitive. *)
Theorem complete_top_k_ranked
    (float_leb_total :
       forall a b : float, float_leb a b = true \/ float_leb b a = true)
    (float_leb_trans :
       forall a b c : float,
         float_leb a b = true -> float_leb b c = true ->
         float_leb a c = true) :
  (forall (t : Trie) (p : string) (k : nat),
      wf t ->
      let r := Trie_complete p (Z.of_nat k) t in
      length r <= k
      /\ NoDup r
      /\ (forall w, In w r ->
                    Trie_contains w t = true /\ String.prefix p w = true)
      /\ exists l, ranked_matches t p l /\ r = map fst (firstn k l))
  /\ (forall (t : Trie) (x5 x3 : float),
         wf t ->
         float_leb x3 x5 = true -> float_leb x5 x3 = false ->
         stores t [("cat", x5); ("car", x3); ("can", x5)] ->
         Trie_complete "ca" 3 t = ["can"; "cat"; "car"])
  /\ (forall ops : list trie_op, wf (apply_ops ops Trie_new)).
Proof.
  split; [|split]; [| |intros ops; apply apply_ops_wf, wf_new].
  - intros t p k H r.
    destruct (complete_ranked float_leb_total float_leb_trans t p k H)
      as [l [[Mem [ND Srt]] E]].
    fold r in E. rewrite E. split; [|split; [|split]].
    + rewrite length_map. apply firstn_le_length.
    + rewrite <- firstn_map. now apply firstn_NoDup.
    + intros w I. apply in_map_iff in I as [[w' x] [Ew I]].
      simpl in Ew. subst w'.
      apply firstn_incl, Mem in I as [L P].
      split; [|exact P]. apply contains_lookup. eauto.
    + exists l. split; [|reflexivity]. split; [|split]; assumption.
  - intros t x5 x3 H Lt Nle St.
    destruct (complete_ranked float_leb_total float_leb_trans t "ca" 3 H)
      as [l [RM E]].
    change (Z.of_nat 3) with 3%Z in E. rewrite E.
    assert (ranked_matches t "ca" [("can", x5); ("cat", x5); ("car", x3)])
      as RM'.
    { split; [|split].
      - intros w x. rewrite (St w x). simpl.
        split.
        + intros [E'|[E'|[E'|[]]]]; injection E' as <- <-; auto 6.
        + intros [[E'|[E'|[E'|[]]]] _]; injection E' as <- <-; auto.
      - simpl. repeat constructor; simpl; intuition discriminate.
      - pose proof (float_leb_refl float_leb_total x5) as R5.
        repeat constructor; unfold rank_leb; simpl;
          rewrite ?R5, ?Nle, ?Lt; reflexivity. }
    now rewrite (ranked_matches_unique float_leb_total t "ca" _ _ RM RM').
Qed.

End TrieFacts.

(** * The CSV helpers and the dispatcher *)

Section ToolFacts.

Context {B : Builtins}.

(** ** [load_csv] *)

Lemma load_rows_acc (rows : list (list string)) :
  forall acc, load_rows rows acc = acc ++ load_rows rows [].
Proof.
  induction rows as [|row rows IH]; intros acc; simpl.
  - now rewrite app_nil_r.
  - destruct row as [|raw_word fields]; [apply IH |].
    rewrite (IH (acc ++ _)), (IH [_]). now rewrite <- app_assoc.
Qed.

Lemma load_rows_cons (raw_word : string) (fields : list string)
    (rows : list (list string)) :
  load_rows ((raw_word :: fields) :: rows) []
  = (str_lower (str_strip raw_word), row_score (raw_word :: fields))
    :: load_rows rows [].
Proof. simpl. now rewrite load_rows_acc. Qed.

Lemma load_rows_map (rows : list (list string)) :
  load_rows rows []
  = map (fun row => (str_lower (str_strip (hd "" row)), row_score row))
        (filter nonblank rows).
Proof.
  induction rows as [|[|raw_word fields] rows IH]; [reflexivity | exact IH |].
  rewrite load_rows_cons, IH. reflexivity.
Qed.

(** What [load_csv] returns and does, by what reading the path gives. *)
Lemma load_csv_run (path : string) (w : World) :
  load_csv path w
  = match files w path with
    | ReadRows rows => (Ok (load_rows rows []), w)
    | ReadRaises e =>
        (Ok [],
         mkWorld (files w) (write_raises w)
           (stdout w ++
              [match e with
               | FileNotFoundError _ =>
                   ("ERROR: File not found at " ++ str_of_path path)%string
               | _ => ("ERROR: Could not read " ++ str_of_path path ++ ": "
                       ++ exn_msg e)%string
               end])
           (stderr w) (calls w))
    end.
Proof.
  unfold load_csv. destruct (files w path) as [rows|[]]; reflexivity.
Qed.

(** C2. For every row read during bulk load whose first field is present,
    [load_csv] pairs the word with 0.0 when the second field is missing or
    does not parse as a number, and with the parsed value when it parses;
    the pairs come one per such row, in the order of the rows. *)
Theorem load_csv_default_weight :
  (forall rows : list (list string),
      Forall2 (fun row pair =>
                 fst pair = str_lower (str_strip (hd "" row))
                 /\ (length row < 2 \/ float_of_str (nth 1 row "") = None ->
                     snd pair = float_zero)
                 /\ (forall x, 2 <= length row ->
                               float_of_str (nth 1 row "") = Some x ->
                               snd pair = x))
              (filter nonblank rows) (load_rows rows []))
  /\ (forall (path : string) (w : World) (rows : list (list string)),
         files w path = ReadRows rows ->
         load_csv path w = (Ok (load_rows rows []), w)).
Proof.
  split.
  - intros rows. rewrite load_rows_map.
    induction (filter nonblank rows) as [|row l IH]; constructor; [|exact IH].
    simpl. unfold row_score. split; [reflexivity |].
    destruct (Nat.ltb_spec 1 (length row)) as [L|L].
    + split.
      * intros [H|H]; [lia | now rewrite H].
      * intros x _ H. now rewrite H.
    + split; [reflexivity | intros x H; lia].
  - intros path w rows H. now rewrite load_csv_run, H.
Qed.

(** C10. For every row read by [load_csv]: a blank row is skipped and leaves
    no trace in the result; the word of a pair is the first field of its row,
    stripped and then lower-cased; the fields after the second change
    nothing. *)
Theorem load_csv_rows :
  (forall (rows1 rows2 : list (list string)) (acc : list (string * float)),
      load_rows (rows1 ++ [] :: rows2) acc = load_rows (rows1 ++ rows2) acc)
  /\ (forall rows : list (list string),
         map fst (load_rows rows [])
         = map (fun row => str_lower (str_strip (hd "" row)))
               (filter nonblank rows))
  /\ (forall rows : list (list string),
         load_rows (map (firstn 2) rows) [] = load_rows rows [])
  /\ (forall (path : string) (w : World) (rows : list (list string)),
         files w path = ReadRows rows ->
         load_csv path w = (Ok (load_rows rows []), w)).
Proof.
  split; [|split; [|split]].
  - intros rows1 rows2.
    induction rows1 as [|[|raw_word fields] rows1 IH]; intros acc; simpl; auto.
  - intros rows. rewrite load_rows_map, map_map. reflexivity.
  - intros rows. rewrite !load_rows_map.
    induction rows as [|[|a [|b fields]] rows IH]; simpl; auto;
      f_equal; exact IH.
  - intros path w rows H. now rewrite load_csv_run, H.
Qed.

(** ** The commands *)

Lemma logged_nil (w : World) : logged [] w = w.
Proof. destruct w. unfold logged. simpl. now rewrite app_nil_r. Qed.

Lemma logged_logged (cs cs' : list trie_call) (w : World) :
  logged cs' (logged cs w) = logged (cs ++ cs') w.
Proof. unfold logged. simpl. now rewrite app_assoc. Qed.

Lemma insert_all_run (pairs : list (string * float)) :
  forall (t : Trie) (w : World),
    insert_all t pairs w
    = (Ok (insert_pairs pairs t), logged (insert_calls pairs) w).
Proof.
  induction pairs as [|[word score] pairs IH]; intros t w; simpl.
  - unfold ret. now rewrite logged_nil.
  - unfold bind, trie_insert, log, ret. simpl. rewrite IH.
    unfold logged. simpl. now rewrite <- app_assoc.
Qed.

Lemma load_command_run (t : Trie) (path : string) (w : World) :
  load_command t path w
  = match load_csv path w with
    | (Ok pairs, w1) =>
        (Ok (insert_pairs pairs Trie_new),
         logged (CallNew :: insert_calls pairs) w1)
    | (Raise e, w1) => (Raise e, w1)
    end.
Proof.
  unfold load_command, bind at 1.
  destruct (load_csv path w) as [[pairs|e] w1]; [|reflexivity].
  unfold bind, new_trie, log, ret. simpl. rewrite insert_all_run.
  unfold logged. simpl. now rewrite <- app_assoc.
Qed.

Lemma insert_command_run (t : Trie) (word freq_str : string) (w : World) :
  insert_command t word freq_str w
  = match float_of_str freq_str with
    | Some x => (Ok (Trie_insert (str_lower word) x t),
                 logged [CallInsert (str_lower word) x] w)
    | None =>
        (Raise (ValueError ("could not convert string to float: "
                            ++ freq_str)), w)
    end.
Proof.
  unfold insert_command, py_float, bind.
  destruct (float_of_str freq_str); reflexivity.
Qed.

Lemma remove_command_run (t : Trie) (word : string) (w : World) :
  remove_command t word w
  = (Ok (snd (Trie_remove (str_lower word) t)),
     printed [if fst (Trie_remove (str_lower word) t) then "OK" else "MISS"]
       (logged [CallRemove (str_lower word)] w)).
Proof. reflexivity. Qed.

Lemma contains_command_run (t : Trie) (word : string) (w : World) :
  contains_command t word w
  = (Ok tt,
     printed [if Trie_contains (str_lower word) t then "YES" else "NO"]
       (logged [CallContains (str_lower word)] w)).
Proof. reflexivity. Qed.

Lemma complete_command_run (t : Trie) (prefix k_str : string) (w : World) :
  complete_command t prefix k_str w
  = match int_of_str k_str with
    | Some k =>
        (Ok tt,
         printed [String.concat "," (Trie_complete (str_lower prefix) k t)]
           (logged [CallComplete (str_lower prefix) k] w))
    | None =>
        (Raise (ValueError ("invalid literal for int() with base 10: "
                            ++ k_str)), w)
    end.
Proof.
  unfold complete_command, py_int, bind.
  destruct (int_of_str k_str); reflexivity.
Qed.

Lemma save_command_run (t : Trie) (path : string) (w : World) :
  save_command t path w
  = match write_raises w path with
    | None => (Ok tt, written path (map csv_record (Trie_items t))
                        (logged [CallItems] w))
    | Some e =>
        if is_OSError e
        then (Ok tt,
              printed [("ERROR: Could not write to file " ++ str_of_path path
                        ++ ": " ++ exn_msg e)%string]
                (logged [CallItems] w))
        else (Raise e, logged [CallItems] w)
    end.
Proof.
  unfold save_command, bind, trie_items, log, ret, save_csv. simpl.
  destruct (write_raises w path) as [e|]; [|reflexivity].
  destruct (is_OSError e); reflexivity.
Qed.

(** A line with words runs the [try] of [parse_and_execute] on them. *)
Lemma parse_and_execute_run (line : string) (t : Trie) (w : World)
    (p0 : string) (rest : list string) :
  str_strip line <> "" ->
  tokens line = p0 :: rest ->
  parse_and_execute line t w
  = match try_except (dispatch (str_lower p0) (p0 :: rest) t)
            (handlers (p0 :: rest)) w with
    | (Ok (Some res), w') => (Ok res, w')
    | (Ok None, w') => (Ok (true, t), w')
    | (Raise e, w') => (Raise e, w')
    end.
Proof.
  intros NE T. unfold parse_and_execute. fold (tokens line).
  destruct (String.eqb_spec (str_strip line) ""); [contradiction |].
  rewrite T. unfold bind.
  destruct (try_except _ _ w) as [[[res|]|e] w']; reflexivity.
Qed.

(** ** The dispatcher, command by command *)

Lemma parse_and_execute_load (line : string) (t : Trie) (w : World)
    (c path : string) (pairs : list (string * float)) (w1 : World) :
  str_strip line <> "" -> tokens line = [c; path] -> str_lower c = "load" ->
  load_csv path w = (Ok pairs, w1) ->
  parse_and_execute line t w
  = (Ok (true, insert_pairs pairs Trie_new),
     logged (CallNew :: insert_calls pairs) w1).
Proof.
  intros NE T C L. rewrite (parse_and_execute_run line t w c [path] NE T).
  unfold try_except, dispatch. rewrite C. simpl. unfold bind.
  now rewrite load_command_run, L.
Qed.

Lemma parse_and_execute_save (line : string) (t : Trie) (w : World)
    (c path : string) :
  str_strip line <> "" -> tokens line = [c; path] -> str_lower c = "save" ->
  write_raises w path = None ->
  parse_and_execute line t w
  = (Ok (true, t),
     written path (map csv_record (Trie_items t)) (logged [CallItems] w)).
Proof.
  intros NE T C W. rewrite (parse_and_execute_run line t w c [path] NE T).
  unfold try_except, dispatch. rewrite C. simpl. unfold bind.
  rewrite save_command_run, W. reflexivity.
Qed.

Lemma parse_and_execute_insert (line : string) (t : Trie) (w : World)
    (c word freq_str : string) :
  str_strip line <> "" -> tokens line = [c; word; freq_str] ->
  str_lower c = "insert" ->
  parse_and_execute line t w
  = match float_of_str freq_str with
    | Some x => (Ok (true, Trie_insert (str_lower word) x t),
                 logged [CallInsert (str_lower word) x] w)
    | None => (Ok (true, t), w)
    end.
Proof.
  intros NE T C.
  rewrite (parse_and_execute_run line t w c [word; freq_str] NE T).
  unfold try_except, dispatch. rewrite C. simpl. unfold bind.
  rewrite insert_command_run.
  destruct (float_of_str freq_str); reflexivity.
Qed.

Lemma parse_and_execute_remove (line : string) (t : Trie) (w : World)
    (c word : string) :
  str_strip line <> "" -> tokens line = [c; word] ->
  str_lower c = "remove" ->
  parse_and_execute line t w
  = (Ok (true, snd (Trie_remove (str_lower word) t)),
     printed [if fst (Trie_remove (str_lower word) t) then "OK" else "MISS"]
       (logged [CallRemove (str_lower word)] w)).
Proof.
  intros NE T C. rewrite (parse_and_execute_run line t w c [word] NE T).
  unfold try_except, dispatch. rewrite C. reflexivity.
Qed.

Lemma parse_and_execute_contains (line : string) (t : Trie) (w : World)
    (c word : string) :
  str_strip line <> "" -> tokens line = [c; word] ->
  str_lower c = "contains" ->
  parse_and_execute line t w
  = (Ok (true, t),
     printed [if Trie_contains (str_lower word) t then "YES" else "NO"]
       (logged [CallContains (str_lower word)] w)).
Proof.
  intros NE T C. rewrite (parse_and_execute_run line t w c [word] NE T).
  unfold try_except, dispatch. rewrite C. reflexivity.
Qed.

Lemma parse_and_execute_complete (line : string) (t : Trie) (w : World)
    (c prefix k_str : string) :
  str_strip line <> "" -> tokens line = [c; prefix; k_str] ->
  str_lower c = "complete" ->
  parse_and_execute line t w
  = match int_of_str k_str with
    | Some k =>
        (Ok (true, t),
         printed [String.concat "," (Trie_complete (str_lower prefix) k t)]
           (logged [CallComplete (str_lower prefix) k] w))
    | None => (Ok (true, t), w)
    end.
Proof.
  intros NE T C.
  rewrite (parse_and_execute_run line t w c [prefix; k_str] NE T).
  unfold try_except, dispatch. rewrite C. simpl. unfold bind.
  rewrite complete_command_run.
  destruct (int_of_str k_str); reflexivity.
Qed.

(** ** Bulk load *)

Lemma load_csv_ok (path : string) (w : World) :
  exists pairs w1,
    load_csv path w = (Ok pairs, w1) /\ calls w1 = calls w
    /\ (forall rows, files w path = ReadRows rows ->
                     pairs = load_rows rows [] /\ w1 = w)
    /\ (forall e, files w path = ReadRaises e -> pairs = []).
Proof.
  rewrite load_csv_run. destruct (files w path) as [rows|e].
  - exists (load_rows rows []), w. repeat split; congruence.
  - eexists [], _. repeat split; congruence.
Qed.

(** C7. Whatever the file, the load command constructs one trie and then
    calls [insert(word, score)] once for each pair [load_csv] returns, in the
    order of the pairs (which is the order of the records in the file), each
    call on the trie the calls before it built; that trie is the one the
    dispatcher returns. *)
Theorem load_inserts_each_pair :
  forall (t : Trie) (path : string) (w : World),
    exists pairs w1,
      load_csv path w = (Ok pairs, w1)
      /\ calls w1 = calls w
      /\ (forall rows, files w path = ReadRows rows ->
                       pairs = load_rows rows [])
      /\ load_command t path w
         = (Ok (insert_pairs pairs Trie_new),
            logged (CallNew :: insert_calls pairs) w1)
      /\ (forall line c,
             str_strip line <> "" -> tokens line = [c; path] ->
             str_lower c = "load" ->
             parse_and_execute line t w
             = (Ok (true, insert_pairs pairs Trie_new),
                logged (CallNew :: insert_calls pairs) w1)).
Proof.
  intros t path w.
  destruct (load_csv_ok path w) as [pairs [w1 [L [Cs [Rows _]]]]].
  exists pairs, w1. split; [exact L |]. split; [exact Cs |].
  split; [intros rows H; now apply Rows |].
  split; [now rewrite load_command_run, L |].
  intros line c NE T C. now apply (parse_and_execute_load line t w c path).
Qed.

(** C3, as the code has it.  For every record read during bulk load the
    loader coerces a missing or non-numeric weight to 0.0, strips and
    lower-cases the word and skips blank rows, and the load command never
    raises; the word is not checked for emptiness: [insert] is called with
    the empty word exactly for the non-blank rows whose first field is empty
    once stripped and lower-cased. *)
Theorem load_coerces_weights_only (t : Trie) (path : string) (w : World)
    (rows : list (list string)) :
  files w path = ReadRows rows ->
  load_command t path w
  = (Ok (insert_pairs (load_rows rows []) Trie_new),
     logged (CallNew :: insert_calls (load_rows rows [])) w)
  /\ (forall word x,
         In (CallInsert word x) (insert_calls (load_rows rows [])) ->
         exists row,
           In row rows /\ row <> []
           /\ word = str_lower (str_strip (hd "" row))
           /\ (x = float_zero \/ float_of_str (nth 1 row "") = Some x))
  /\ (forall x,
         In (CallInsert "" x) (insert_calls (load_rows rows []))
         <-> exists row,
               In row rows /\ row <> []
               /\ str_lower (str_strip (hd "" row)) = ""
               /\ row_score row = x).
Proof.
  intros F.
  assert (forall word x,
             In (CallInsert word x) (insert_calls (load_rows rows []))
             <-> exists row,
                   In row rows /\ row <> []
                   /\ word = str_lower (str_strip (hd "" row))
                   /\ x = row_score row) as Calls.
  { intros word x. unfold insert_calls. rewrite load_rows_map, map_map.
    rewrite in_map_iff. simpl. split.
    - intros [row [E I]]. injection E as <- <-.
      apply filter_In in I as [I NB]. exists row. repeat split; auto.
      intros ->. discriminate.
    - intros [row [I [NB [-> ->]]]]. exists row. split; [reflexivity |].
      apply filter_In. split; [exact I |]. now destruct row. }
  split; [|split].
  - rewrite load_command_run, load_csv_run, F. reflexivity.
  - intros word x I. apply Calls in I as [row [I [NB [-> ->]]]].
    exists row. repeat split; auto.
    unfold row_score. destruct (1 <? length row)%nat; [|now left].
    destruct (float_of_str (nth 1 row "")); auto.
  - intros x. rewrite Calls. split; intros [row [I [NB [E1 E2]]]];
      exists row; repeat split; auto.
Qed.

(** C8. When the path of a load command names a file that does not exist or
    cannot be read, [load_csv] returns the empty list and the dispatcher
    returns a freshly constructed trie, on which no [insert] was called and
    which holds no word: what the previous trie held is gone. *)
Theorem failed_load_discards_trie (line : string) (t : Trie) (w : World)
    (c path : string) (e : exn) :
  str_strip line <> "" -> tokens line = [c; path] -> str_lower c = "load" ->
  files w path = ReadRaises e ->
  fst (load_csv path w) = Ok []
  /\ fst (parse_and_execute line t w) = Ok (true, Trie_new)
  /\ calls (snd (parse_and_execute line t w)) = calls w ++ [CallNew]
  /\ (forall word, Trie_contains word Trie_new = false)
  /\ Trie_items Trie_new = [].
Proof.
  intros NE T C F.
  destruct (load_csv_ok path w) as [pairs [w1 [L [Cs [_ Err]]]]].
  rewrite (Err e F) in L.
  rewrite (parse_and_execute_load line t w c path [] w1 NE T C L), L.
  simpl. rewrite Cs. repeat split.
  intros [|a word]; reflexivity.
Qed.

(** ** Save *)

(** C6. When the path can be written, the save command asks the trie for
    [items()] and leaves in the file exactly one record per pair, in the
    order of the pairs, each record made of the two fields word and weight;
    nothing precedes the first record. *)
Theorem save_writes_one_record_per_item (t : Trie) (path : string)
    (w : World) :
  write_raises w path = None ->
  exists records,
    save_command t path w
    = (Ok tt, written path records (logged [CallItems] w))
    /\ files (snd (save_command t path w)) path = ReadRows records
    /\ length records = length (Trie_items t)
    /\ Forall2 (fun item record =>
                  record = [fst item; str_of_float (snd item)])
               (Trie_items t) records
    /\ Forall (fun record => length record = 2) records.
Proof.
  intros W. exists (map csv_record (Trie_items t)).
  rewrite save_command_run, W. simpl. rewrite String.eqb_refl.
  split; [reflexivity |]. split; [reflexivity |].
  split; [apply length_map |].
  induction (Trie_items t) as [|item items IH]; simpl.
  - split; constructor.
  - destruct IH as [IH1 IH2]. split; constructor; auto.
Qed.

(** ** Normalisation of words *)

Lemma load_pairs_lowered (path : string) (w w1 : World)
    (pairs : list (string * float)) :
  load_csv path w = (Ok pairs, w1) -> Forall lowered (insert_calls pairs).
Proof.
  rewrite load_csv_run. destruct (files w path) as [rows|e]; intros E;
    injection E as <- _; [|constructor].
  unfold insert_calls. rewrite load_rows_map, map_map.
  apply Forall_forall. intros call I.
  apply in_map_iff in I as [row [<- _]]. simpl. eauto.
Qed.

Lemma handlers_calls (parts : list string) (e : exn) (w : World) :
  calls (snd (handlers parts e w)) = calls w.
Proof.
  unfold handlers. destruct e; try reflexivity.
  destruct (nth_error parts 1); reflexivity.
Qed.

(** Every string the [try] of [parse_and_execute] hands to a trie method
    is lower-cased. *)
Lemma dispatch_calls_lowered (cmd : string) (parts : list string) (t : Trie)
    (w : World) :
  exists new,
    calls (snd (dispatch cmd parts t w)) = calls w ++ new
    /\ Forall lowered new.
Proof.
  assert (forall cs, (forall c, In c cs -> lowered c) -> Forall lowered cs)
    as All by (intros cs H; now apply Forall_forall).
  unfold dispatch.
  destruct (cmd =? "quit");
    [exists []; split; [simpl; now rewrite app_nil_r | constructor] |].
  destruct ((cmd =? "load") && (length parts =? 2)%nat).
  { unfold bind. rewrite load_command_run.
    destruct (load_csv_ok (nth 1 parts "") w) as [pairs [w1 [L [Cs _]]]].
    rewrite L. simpl. rewrite Cs.
    exists (CallNew :: insert_calls pairs). split; [reflexivity |].
    constructor; [exact I | eapply load_pairs_lowered; exact L]. }
  destruct ((cmd =? "save") && (length parts =? 2)%nat).
  { unfold bind. rewrite save_command_run.
    exists [CallItems]. split; [|repeat constructor].
    destruct (write_raises w (nth 1 parts "")) as [e|]; [|reflexivity].
    destruct (is_OSError e); reflexivity. }
  destruct ((cmd =? "insert") && (length parts =? 3)%nat).
  { unfold bind. rewrite insert_command_run.
    destruct (float_of_str (nth 2 parts "")) as [x|].
    - eexists [_]. split; [reflexivity |]. repeat constructor. simpl. eauto.
    - exists []. split; [simpl; now rewrite app_nil_r | constructor]. }
  destruct ((cmd =? "remove") && (length parts =? 2)%nat).
  { eexists [_]. split; [reflexivity |]. repeat constructor. simpl. eauto. }
  destruct ((cmd =? "contains") && (length parts =? 2)%nat).
  { eexists [_]. split; [reflexivity |]. repeat constructor. simpl. eauto. }
  destruct ((cmd =? "complete") && (length parts =? 3)%nat).
  { unfold bind. rewrite complete_command_run.
    destruct (int_of_str (nth 2 parts "")) as [k|].
    - eexists [_]. split; [reflexivity |]. repeat constructor. simpl. eauto.
    - exists []. split; [simpl; now rewrite app_nil_r | constructor]. }
  destruct ((cmd =? "stats") && (length parts =? 1)%nat).
  { exists [CallStats]. split; [|repeat constructor].
    unfold bind, stats_command, bind, trie_stats, log, ret. simpl.
    destruct (Trie_stats t) as [[a b] c]. reflexivity. }
  exists []. split; [simpl; now rewrite app_nil_r | constructor].
Qed.

Lemma parse_and_execute_calls_lowered (line : string) (t : Trie)
    (w : World) :
  exists new,
    calls (snd (parse_and_execute line t w)) = calls w ++ new
    /\ Forall lowered new.
Proof.
  unfold parse_and_execute. fold (tokens line).
  destruct (str_strip line =? "");
    [exists []; split; [simpl; now rewrite app_nil_r | constructor] |].
  destruct (tokens line) as [|p0 rest];
    [exists []; split; [simpl; now rewrite app_nil_r | constructor] |].
  destruct (dispatch_calls_lowered (str_lower p0) (p0 :: rest) t w)
    as [new [E F]].
  exists new. split; [|exact F]. rewrite <- E.
  unfold bind, try_except.
  destruct (dispatch (str_lower p0) (p0 :: rest) t w) as [[[res|]|e] w'];
    try reflexivity.
  simpl. rewrite <- (handlers_calls (p0 :: rest) e w').
  destruct (handlers (p0 :: rest) e w') as [[[res|]|e'] w'']; reflexivity.
Qed.

(** C4. An insert, remove, contains or complete command calls the trie
    method with the lower-casing of its word or prefix argument; the words
    [load_csv] returns are lower-cased too (after stripping).  So whatever
    the line, load commands included, every string the dispatcher hands to
    a trie method is the lower-casing of some string. *)
Theorem dispatcher_lowercases_words :
  (forall line t w c word freq_str x,
      str_strip line <> "" -> tokens line = [c; word; freq_str] ->
      str_lower c = "insert" -> float_of_str freq_str = Some x ->
      parse_and_execute line t w
      = (Ok (true, Trie_insert (str_lower word) x t),
         logged [CallInsert (str_lower word) x] w))
  /\ (forall line t w c word,
         str_strip line <> "" -> tokens line = [c; word] ->
         str_lower c = "remove" ->
         calls (snd (parse_and_execute line t w))
         = calls w ++ [CallRemove (str_lower word)])
  /\ (forall line t w c word,
         str_strip line <> "" -> tokens line = [c; word] ->
         str_lower c = "contains" ->
         calls (snd (parse_and_execute line t w))
         = calls w ++ [CallContains (str_lower word)])
  /\ (forall line t w c prefix k_str k,
         str_strip line <> "" -> tokens line = [c; prefix; k_str] ->
         str_lower c = "complete" -> int_of_str k_str = Some k ->
         calls (snd (parse_and_execute line t w))
         = calls w ++ [CallComplete (str_lower prefix) k])
  /\ (forall rows,
         map fst (load_rows rows [])
         = map (fun row => str_lower (str_strip (hd "" row)))
               (filter nonblank rows))
  /\ (forall line t w,
         exists new,
           calls (snd (parse_and_execute line t w)) = calls w ++ new
           /\ Forall lowered new).
Proof.
  split; [|split; [|split; [|split; [|split]]]].
  - intros line t w c word freq_str x NE T C F.
    now rewrite (parse_and_execute_insert line t w c word freq_str NE T C), F.
  - intros line t w c word NE T C.
    now rewrite (parse_and_execute_remove line t w c word NE T C).
  - intros line t w c word NE T C.
    now rewrite (parse_and_execute_contains line t w c word NE T C).
  - intros line t w c prefix k_str k NE T C K.
    now rewrite (parse_and_execute_complete line t w c prefix k_str NE T C), K.
  - intros rows. rewrite load_rows_map, map_map. reflexivity.
  - apply parse_and_execute_calls_lowered.
Qed.

(** ** Remove *)

(** C5. A remove command calls [remove] on the lower-cased word, raises
    nothing, and prints one line, which is OK exactly when [remove] returned
    true and MISS exactly when it returned false. *)
Theorem remove_reports_by_boolean :
  forall (t : Trie) (word : string) (w : World),
    let r := Trie_remove (str_lower word) t in
    let line := if fst r then "OK" else "MISS" in
    remove_command t word w
    = (Ok (snd r), printed [line] (logged [CallRemove (str_lower word)] w))
    /\ (line = "OK" <-> fst r = true)
    /\ (line = "MISS" <-> fst r = false)
    /\ (forall l c,
           str_strip l <> "" -> tokens l = [c; word] ->
           str_lower c = "remove" ->
           parse_and_execute l t w
           = (Ok (true, snd r),
              printed [line] (logged [CallRemove (str_lower word)] w))).
Proof.
  intros t word w r line. split; [reflexivity |].
  split; [|split].
  - subst line. destruct (fst r); split; congruence.
  - subst line. destruct (fst r); split; congruence.
  - intros l c NE T C.
    now rewrite (parse_and_execute_remove l t w c word NE T C).
Qed.

(** ** Lines that are not commands *)

Lemma handlers_swallow (parts : list string) (e : exn) (w : World) :
  swallowed e = true -> handlers parts e w = (Ok None, w).
Proof. destruct e; simpl; intros H; try discriminate; reflexivity. Qed.

(** A line of words whose [try] raises a swallowed exception, or falls off
    its end, leaves the trie as it was and goes on. *)
Lemma parse_and_execute_ignored (line : string) (t : Trie) (w w' : World)
    (p0 : string) (rest : list string) :
  str_strip line <> "" -> tokens line = p0 :: rest ->
  (dispatch (str_lower p0) (p0 :: rest) t w = (Ok None, w')
   \/ exists e, swallowed e = true
                /\ dispatch (str_lower p0) (p0 :: rest) t w = (Raise e, w')) ->
  parse_and_execute line t w = (Ok (true, t), w').
Proof.
  intros NE T D. rewrite (parse_and_execute_run line t w p0 rest NE T).
  unfold try_except. destruct D as [D|[e [S D]]]; rewrite D; [reflexivity |].
  now rewrite handlers_swallow.
Qed.

(** X1. A line that is not a well-formed command (empty, unknown command,
    wrong number of arguments, frequency or [k] not a number) and does not
    name [quit] leaves the trie and the world as they were and returns
    continue = true; a line whose first word is [quit] in any case returns
    continue = false with the trie unchanged, whatever follows the word; and
    a [ValueError], [TypeError] or [IndexError] raised in the [try] is
    swallowed: the function returns (true, trie). *)
Theorem malformed_line_ignored :
  (forall line t w,
      malformed line = true -> names_quit line = false ->
      parse_and_execute line t w = (Ok (true, t), w))
  /\ (forall line t w,
         names_quit line = true ->
         parse_and_execute line t w = (Ok (false, t), w))
  /\ (forall line t w w' p0 rest e,
         str_strip line <> "" -> tokens line = p0 :: rest ->
         swallowed e = true ->
         dispatch (str_lower p0) (p0 :: rest) t w = (Raise e, w') ->
         parse_and_execute line t w = (Ok (true, t), w')).
Proof.
  split; [|split].
  - intros line t w M Q. unfold malformed, names_quit in *.
    destruct (String.eqb_spec (str_strip line) "") as [E|NE].
    { unfold parse_and_execute. now rewrite E. }
    destruct (tokens line) as [|p0 rest] eqn:T.
    { unfold parse_and_execute. fold (tokens line). rewrite T.
      now destruct (str_strip line =? ""). }
    cbv beta iota delta [orb andb negb hd] in M, Q.
    apply (parse_and_execute_ignored line t w w p0 rest NE T).
    unfold dispatch. rewrite Q.
    cbv beta iota delta [usage_of usage] in M.
    generalize dependent (str_lower p0). intros cmd M Q.
    generalize dependent (p0 :: rest). intros parts _ M.
    destruct (String.eqb_spec cmd "load") as [->|N1];
      [simpl in M |- *; destruct (length parts =? 2)%nat;
       [discriminate M | now left] |].
    destruct (String.eqb_spec cmd "save") as [->|N2];
      [simpl in M |- *; destruct (length parts =? 2)%nat;
       [discriminate M | now left] |].
    destruct (String.eqb_spec cmd "insert") as [->|N3].
    { simpl in M |- *. destruct (length parts =? 3)%nat; [|now left].
      unfold bind. rewrite insert_command_run.
      destruct (float_of_str (nth 2 parts "")); [discriminate M |].
      right. eexists. split; [|reflexivity]. reflexivity. }
    destruct (String.eqb_spec cmd "remove") as [->|N4];
      [simpl in M |- *; destruct (length parts =? 2)%nat;
       [discriminate M | now left] |].
    destruct (String.eqb_spec cmd "contains") as [->|N5];
      [simpl in M |- *; destruct (length parts =? 2)%nat;
       [discriminate M | now left] |].
    destruct (String.eqb_spec cmd "complete") as [->|N6].
    { simpl in M |- *. destruct (length parts =? 3)%nat; [|now left].
      unfold bind. rewrite complete_command_run.
      destruct (int_of_str (nth 2 parts "")); [discriminate M |].
      right. eexists. split; [|reflexivity]. reflexivity. }
    destruct (String.eqb_spec cmd "stats") as [->|N7];
      [simpl in M |- *; destruct (length parts =? 1)%nat;
       [discriminate M | now left] |].
    simpl. now left.
  - intros line t w Q. unfold names_quit in Q.
    apply andb_true_iff in Q as [NE Q]. apply negb_true_iff in NE.
    destruct (tokens line) as [|p0 rest] eqn:T; [discriminate |].
    apply String.eqb_neq in NE.
    rewrite (parse_and_execute_run line t w p0 rest NE T).
    unfold try_except, dispatch. now rewrite Q.
  - intros line t w w' p0 rest e NE T S D.
    apply (parse_and_execute_ignored line t w w' p0 rest NE T). eauto.
Qed.

End ToolFacts.

(** * What a line can do: effects of the dispatcher on the world *)

Section DispatcherFacts.

Context {B : Builtins}.

Lemma stats_command_run (t : Trie) (w : World) :
  exists line,
    stats_command t w = (Ok tt, printed [line] (logged [CallStats] w)).
Proof.
  unfold stats_command, bind, trie_stats, log, ret. simpl.
  destruct (Trie_stats t) as [[a b] c]. eexists. reflexivity.
Qed.

Ltac quiet :=
  repeat split;
  try reflexivity;
  try (exists []; split; [simpl; now rewrite app_nil_r | simpl; lia]);
  try (eexists [_]; split; [reflexivity | simpl; lia]);
  try (intros ?; now left).

(** The effects of the body of the [try], whatever the command. *)
Lemma dispatch_effects (cmd : string) (parts : list string) (t : Trie)
    (w : World) :
  stderr (snd (dispatch cmd parts t w)) = stderr w
  /\ write_raises (snd (dispatch cmd parts t w)) = write_raises w
  /\ (exists out,
         stdout (snd (dispatch cmd parts t w)) = stdout w ++ out
         /\ length out <= 1)
  /\ (forall p,
         files (snd (dispatch cmd parts t w)) p = files w p
         \/ (cmd = "save" /\ length parts = 2 /\ p = nth 1 parts ""
             /\ write_raises w p = None))
  /\ match fst (dispatch cmd parts t w) with
     | Ok (Some (b, _)) => b = negb (cmd =? "quit")
     | Ok None => (cmd =? "quit") = false
     | Raise e =>
         (cmd =? "quit") = false
         /\ is_OSError e = false
         /\ (swallowed e = true
             \/ (cmd = "save" /\ length parts = 2
                 /\ write_raises w (nth 1 parts "") = Some e))
     end.
Proof.
  unfold dispatch.
  destruct (String.eqb_spec cmd "quit") as [->|NQ]; [simpl; quiet |].
  destruct (String.eqb_spec cmd "load") as [->|NL].
  { destruct (length parts =? 2)%nat; [|simpl; quiet].
    cbn [andb]. unfold bind. rewrite load_command_run, load_csv_run.
    destruct (files w (nth 1 parts "")) as [rows|e]; simpl; quiet. }
  destruct (String.eqb_spec cmd "save") as [->|NS].
  { destruct (Nat.eqb_spec (length parts) 2) as [L|L]; [|simpl; quiet].
    cbn [andb]. unfold bind. rewrite save_command_run.
    destruct (write_raises w (nth 1 parts "")) as [e|] eqn:W.
    - destruct (is_OSError e) eqn:O; simpl; quiet; auto.
    - simpl. quiet. intros p. simpl.
      destruct (String.eqb_spec p (nth 1 parts "")) as [->|N];
        [right; auto | now left]. }
  destruct (String.eqb_spec cmd "insert") as [->|NI].
  { destruct (length parts =? 3)%nat; [|simpl; quiet].
    cbn [andb]. unfold bind. rewrite insert_command_run.
    destruct (float_of_str (nth 2 parts "")); simpl; quiet; auto. }
  destruct (String.eqb_spec cmd "remove") as [->|NR].
  { destruct (length parts =? 2)%nat; simpl; quiet. }
  destruct (String.eqb_spec cmd "contains") as [->|NC].
  { destruct (length parts =? 2)%nat; simpl; quiet. }
  destruct (String.eqb_spec cmd "complete") as [->|NP].
  { destruct (length parts =? 3)%nat; [|simpl; quiet].
    cbn [andb]. unfold bind. rewrite complete_command_run.
    destruct (int_of_str (nth 2 parts "")); simpl; quiet; auto. }
  destruct (String.eqb_spec cmd "stats") as [->|NT].
  { destruct (length parts =? 1)%nat; [|simpl; quiet].
    cbn [andb]. unfold bind.
    destruct (stats_command_run t w) as [line ->]. simpl. quiet. }
  simpl. quiet.
Qed.

Lemma names_quit_tokens (line p0 : string) (rest : list string) :
  str_strip line <> "" -> tokens line = p0 :: rest ->
  names_quit line = (str_lower p0 =? "quit").
Proof.
  intros NE T. unfold names_quit. rewrite T.
  destruct (String.eqb_spec (str_strip line) ""); [contradiction | reflexivity].
Qed.

(** The effects of one line, whatever it holds. *)
Lemma parse_and_execute_effects (line : string) (t : Trie) (w : World) :
  stderr (snd (parse_and_execute line t w)) = stderr w
  /\ write_raises (snd (parse_and_execute line t w)) = write_raises w
  /\ (exists out,
         stdout (snd (parse_and_execute line t w)) = stdout w ++ out
         /\ length out <= 1)
  /\ (forall p,
         files (snd (parse_and_execute line t w)) p = files w p
         \/ (invokes line "save" 2 /\ p = nth 1 (tokens line) ""
             /\ write_raises w p = None))
  /\ match fst (parse_and_execute line t w) with
     | Ok (b, _) => b = negb (names_quit line)
     | Raise e =>
         is_OSError e = false /\ swallowed e = false
         /\ invokes line "save" 2
         /\ write_raises w (nth 1 (tokens line) "") = Some e
     end.
Proof.
  destruct (String.eqb_spec (str_strip line) "") as [E|NE].
  { unfold parse_and_execute, names_quit. rewrite E. simpl. quiet. }
  destruct (tokens line) as [|p0 rest] eqn:T.
  { unfold parse_and_execute, names_quit. fold (tokens line). rewrite T.
    destruct (str_strip line =? ""); simpl; quiet. }
  rewrite (parse_and_execute_run line t w p0 rest NE T).
  rewrite (names_quit_tokens line p0 rest NE T).
  destruct (dispatch_effects (str_lower p0) (p0 :: rest) t w)
    as [Err [Wr [Out [Fl Res]]]].
  assert (forall p,
             files (snd (dispatch (str_lower p0) (p0 :: rest) t w)) p
             = files w p
             \/ (invokes line "save" 2 /\ p = nth 1 (p0 :: rest) ""
                 /\ write_raises w p = None)) as Fl'.
  { intros p. destruct (Fl p) as [F|[C [L [P W]]]]; [now left | right].
    repeat split; auto. exists p0, rest. auto. }
  unfold try_except.
  destruct (dispatch (str_lower p0) (p0 :: rest) t w) as [[[[b t']|]|e] w'];
    simpl in *.
  - repeat split; auto.
  - rewrite Res. repeat split; auto.
  - destruct Res as [Q [O S]].
    unfold handlers.
    destruct e; simpl in O; try discriminate; simpl; rewrite ?Q.
    1-3: repeat split; auto.
    destruct S as [S|[C [L W]]]; [discriminate |].
    repeat split; auto. exists p0, rest. auto.
Qed.


Lemma invokes_two (line cmd : string) :
  invokes line cmd 2 ->
  str_strip line <> ""
  /\ exists c a, tokens line = [c; a] /\ str_lower c = cmd.
Proof.
  intros [NE [p0 [rest [T [C L]]]]]. split; [exact NE |].
  destruct rest as [|a [|a' rest]]; try discriminate. eauto.
Qed.



(** ** Lines with no effect, lines that stop the loop *)

Lemma quit_line_stops (line : string) (t : Trie) (w : World) :
  names_quit line = true ->
  parse_and_execute line t w = (Ok (false, t), w).
Proof.
  unfold names_quit. intros Q.
  apply andb_true_iff in Q as [NE Q]. apply negb_true_iff in NE.
  apply String.eqb_neq in NE.
  destruct (tokens line) as [|p0 rest] eqn:T; [discriminate |].
  rewrite (parse_and_execute_run line t w p0 rest NE T).
  unfold try_except, dispatch. now rewrite Q.
Qed.

Ltac wrong_count parts n M :=
  simpl in M |- *; destruct (length parts =? n)%nat;
  [discriminate M | now left].

Lemma malformed_no_effect (line : string) (t : Trie) (w : World) :
  malformed line = true -> names_quit line = false ->
  parse_and_execute line t w = (Ok (true, t), w).
Proof.
  intros M Q. unfold malformed, names_quit in *.
  destruct (String.eqb_spec (str_strip line) "") as [E|NE];
    [unfold parse_and_execute; now rewrite E |].
  destruct (tokens line) as [|p0 rest] eqn:T;
    [unfold parse_and_execute; fold (tokens line); rewrite T;
     now destruct (str_strip line =? "") |].
  cbv beta iota delta [orb andb negb hd] in M, Q.
  apply (parse_and_execute_ignored line t w w p0 rest NE T).
  unfold dispatch. rewrite Q.
  cbv beta iota delta [usage_of usage] in M.
  generalize dependent (str_lower p0). intros cmd M Q.
  generalize dependent (p0 :: rest). intros parts _ M.
  destruct (String.eqb_spec cmd "load") as [->|N1]; [wrong_count parts 2 M |].
  destruct (String.eqb_spec cmd "save") as [->|N2]; [wrong_count parts 2 M |].
  destruct (String.eqb_spec cmd "insert") as [->|N3].
  { simpl in M |- *. destruct (length parts =? 3)%nat; [|now left].
    unfold bind. rewrite insert_command_run.
    destruct (float_of_str (nth 2 parts "")); [discriminate M |].
    right. eexists. split; [|reflexivity]. reflexivity. }
  destruct (String.eqb_spec cmd "remove") as [->|N4];
    [wrong_count parts 2 M |].
  destruct (String.eqb_spec cmd "contains") as [->|N5];
    [wrong_count parts 2 M |].
  destruct (String.eqb_spec cmd "complete") as [->|N6].
  { simpl in M |- *. destruct (length parts =? 3)%nat; [|now left].
    unfold bind. rewrite complete_command_run.
    destruct (int_of_str (nth 2 parts "")); [discriminate M |].
    right. eexists. split; [|reflexivity]. reflexivity. }
  destruct (String.eqb_spec cmd "stats") as [->|N7];
    [wrong_count parts 1 M |].
  simpl. now left.
Qed.

(** ** The loop of [main] *)

Lemma main_loop_cons (raw : string) (rest : list string) (t : Trie)
    (w : World) :
  main_loop (raw :: rest) t w
  = match parse_and_execute raw t w with
    | (Ok (true, t'), w') => main_loop rest t' w'
    | (Ok (false, t'), w') => (Ok t', w')
    | (Raise e, w') => (Raise e, w')
    end.
Proof.
  simpl. unfold bind.
  destruct (parse_and_execute raw t w) as [[[[|] t']|e] w']; reflexivity.
Qed.

(** A relation between the world before and the world after that every
    line keeps, the whole loop keeps. *)
Lemma main_loop_keeps (R : World -> World -> Prop) :
  (forall w, R w w) ->
  (forall w1 w2 w3, R w1 w2 -> R w2 w3 -> R w1 w3) ->
  (forall line t w, R w (snd (parse_and_execute line t w))) ->
  forall stdin t w, R w (snd (main_loop stdin t w)).
Proof.
  intros Refl Trans Step stdin.
  induction stdin as [|raw rest IH]; intros t w; [apply Refl |].
  rewrite main_loop_cons. pose proof (Step raw t w) as S.
  destruct (parse_and_execute raw t w) as [[[[|] t']|e] w']; simpl in *; auto.
  eapply Trans; [exact S | apply IH].
Qed.

Lemma main_run (stdin : list string) (w : World) :
  main stdin w
  = match main_loop stdin Trie_new (logged [CallNew] w) with
    | (Ok _, w') => (Ok tt, w')
    | (Raise e, w') => (Raise e, w')
    end.
Proof.
  unfold main, bind, new_trie, log, ret. simpl.
  fold (logged [CallNew] w).
  destruct (main_loop stdin Trie_new (logged [CallNew] w)) as [[t|e] w'];
    reflexivity.
Qed.

(** ** Properties of the dispatcher and of the loop *)


(** X3. When [parse_and_execute] returns, continue is false exactly when
    the line is not empty and its first word, lower-cased, is [quit]; and
    then the trie returned is the trie given. *)
Theorem loop_stops_only_on_quit :
  forall (line : string) (t : Trie) (w : World),
    match fst (parse_and_execute line t w) with
    | Ok (b, t') =>
        b = negb (names_quit line) /\ (b = false -> t' = t)
    | Raise _ => True
    end.
Proof.
  intros line t w.
  destruct (parse_and_execute_effects line t w) as [_ [_ [_ [_ Res]]]].
  destruct (names_quit line) eqn:Q.
  - rewrite (quit_line_stops line t w Q). simpl. auto.
  - destruct (fst (parse_and_execute line t w)) as [[b t']|e]; [|exact I].
    split; [exact Res |]. rewrite Res. discriminate.
Qed.

(** X4. [parse_and_execute] raises exactly when the line is a save command
    and opening its path for writing raises an exception that is neither an
    [OSError] nor a [ValueError], [TypeError] or [IndexError]; it then
    raises that exception.  No load, insert, remove, contains, complete or
    stats command makes it raise. *)
Theorem dispatcher_raises_only_from_save :
  forall (line : string) (t : Trie) (w : World) (e : exn),
    fst (parse_and_execute line t w) = Raise e
    <-> invokes line "save" 2
        /\ write_raises w (nth 1 (tokens line) "") = Some e
        /\ is_OSError e = false /\ swallowed e = false.
Proof.
  intros line t w e. split.
  - intros R.
    destruct (parse_and_execute_effects line t w) as [_ [_ [_ [_ Res]]]].
    rewrite R in Res. tauto.
  - intros [Inv [W [O S]]].
    apply invokes_two in Inv as [NE [c [path [T C]]]].
    rewrite T in W. simpl in W.
    rewrite (parse_and_execute_run line t w c [path] NE T).
    unfold try_except, dispatch. rewrite C. simpl. unfold bind.
    rewrite save_command_run, W, O.
    destruct e; simpl in O, S; try discriminate. reflexivity.
Qed.



(** ** Files: round trip and errors *)

Lemma load_rows_records (items : list (string * float)) :
  load_rows (map csv_record items) [] = map reloaded items.
Proof.
  induction items as [|item items IH]; [reflexivity |].
  simpl map. unfold csv_record at 1. rewrite load_rows_cons, IH.
  reflexivity.
Qed.

(** X7. After [save_csv] has written the pairs of [items] to a path that
    can be opened for writing, [load_csv] of that path returns one pair per
    item, in order: the word stripped and lower-cased, the weight read back
    by [float] from what [str] wrote (0.0 if it does not parse); it prints
    nothing.  So items whose words are already stripped and lower-cased and
    whose weights [float] reads back come back unchanged, and a save
    command followed by a load command of the same path leaves the trie of
    the [insert]s of the reloaded items. *)
Theorem save_then_load_round_trip (path : string)
    (items : list (string * float)) (w : World) :
  write_raises w path = None ->
  load_csv path (snd (save_csv path items w))
  = (Ok (map reloaded items), snd (save_csv path items w))
  /\ (Forall (fun item => reloaded item = item) items ->
      fst (load_csv path (snd (save_csv path items w))) = Ok items)
  /\ (forall l1 l2 t,
         invokes l1 "save" 2 -> nth 1 (tokens l1) "" = path ->
         invokes l2 "load" 2 -> nth 1 (tokens l2) "" = path ->
         fst (parse_and_execute l2 t (snd (parse_and_execute l1 t w)))
         = Ok (true, insert_pairs (map reloaded (Trie_items t)) Trie_new)).
Proof.
  intros W.
  assert (forall its w0,
             load_csv path (written path (map csv_record its) w0)
             = (Ok (map reloaded its), written path (map csv_record its) w0))
    as Back.
  { intros its w0. rewrite load_csv_run. cbn [files written].
    rewrite String.eqb_refl. now rewrite load_rows_records. }
  assert (save_csv path items w = (Ok tt, written path (map csv_record items) w))
    as Sv by (unfold save_csv; now rewrite W).
  rewrite Sv. simpl snd. split; [apply Back |]. split.
  - intros Fix. rewrite Back. simpl. f_equal. clear Sv.
    induction Fix as [|item its E _ IH]; [reflexivity |].
    simpl. now rewrite E, IH.
  - intros l1 l2 t I1 P1 I2 P2.
    apply invokes_two in I1 as [NE1 [c1 [a1 [T1 C1]]]].
    apply invokes_two in I2 as [NE2 [c2 [a2 [T2 C2]]]].
    rewrite T1 in P1. rewrite T2 in P2. simpl in P1, P2. subst a1 a2.
    rewrite (parse_and_execute_save l1 t w c1 path NE1 T1 C1 W). simpl snd.
    now rewrite (parse_and_execute_load l2 t _ c2 path _ _ NE2 T2 C2
                   (Back (Trie_items t) (logged [CallItems] w))).
Qed.

(** X8. [load_csv] reads a file row by row: the pairs of two lists of rows
    put end to end are the pairs of the first followed by the pairs of the
    second, pairs already collected are never changed, and there are as
    many pairs as rows that are not empty, hence no more than rows. *)
Theorem load_rows_concat :
  (forall (rows1 rows2 : list (list string)) (acc : list (string * float)),
      load_rows (rows1 ++ rows2) acc
      = acc ++ load_rows rows1 [] ++ load_rows rows2 [])
  /\ (forall rows : list (list string),
         length (load_rows rows []) = length (filter nonblank rows)
         /\ length (load_rows rows []) <= length rows).
Proof.
  split.
  - intros rows1 rows2 acc. rewrite load_rows_acc. f_equal.
    rewrite !load_rows_map, filter_app, map_app. reflexivity.
  - intros rows. rewrite load_rows_map, length_map.
    split; [reflexivity | apply filter_length_le].
Qed.

(** X9. File errors are reported on standard output and never stop the
    loop.  A load command whose file cannot be read prints one line, [ERROR:
    File not found at] the path when the file does not exist and [ERROR:
    Could not read] the path and the error otherwise.  A save command whose
    path cannot be opened because of an [OSError] prints [ERROR: Could not
    write to file], writes nothing and keeps the trie; when opening raises a
    [ValueError], [TypeError] or [IndexError] the command is dropped without
    a word. *)
Theorem file_errors_reported_on_stdout :
  (forall line t w e,
      invokes line "load" 2 ->
      files w (nth 1 (tokens line) "") = ReadRaises e ->
      parse_and_execute line t w
      = (Ok (true, Trie_new),
         logged [CallNew]
           (printed
              [match e with
               | FileNotFoundError _ =>
                   ("ERROR: File not found at "
                    ++ str_of_path (nth 1 (tokens line) ""))%string
               | _ =>
                   ("ERROR: Could not read "
                    ++ str_of_path (nth 1 (tokens line) "") ++ ": "
                    ++ exn_msg e)%string
               end] w)))
  /\ (forall line t w e,
         invokes line "save" 2 ->
         write_raises w (nth 1 (tokens line) "") = Some e ->
         is_OSError e = true ->
         parse_and_execute line t w
         = (Ok (true, t),
            printed
              [("ERROR: Could not write to file "
                ++ str_of_path (nth 1 (tokens line) "") ++ ": "
                ++ exn_msg e)%string]
              (logged [CallItems] w)))
  /\ (forall line t w e,
         invokes line "save" 2 ->
         write_raises w (nth 1 (tokens line) "") = Some e ->
         swallowed e = true ->
         parse_and_execute line t w = (Ok (true, t), logged [CallItems] w)).
Proof.
  split; [|split].
  - intros line t w e Inv F.
    apply invokes_two in Inv as [NE [c [path [T C]]]].
    rewrite T in *. simpl in F |- *.
    rewrite (parse_and_execute_load line t w c path [] _ NE T C
               (eq_trans (load_csv_run path w)
                  ltac:(rewrite F; reflexivity))).
    reflexivity.
  - intros line t w e Inv W O.
    apply invokes_two in Inv as [NE [c [path [T C]]]].
    rewrite T in *. simpl in W |- *.
    rewrite (parse_and_execute_run line t w c [path] NE T).
    unfold try_except, dispatch. rewrite C. simpl. unfold bind.
    now rewrite save_command_run, W, O.
  - intros line t w e Inv W S.
    apply invokes_two in Inv as [NE [c [path [T C]]]].
    rewrite T in *. simpl in W.
    rewrite (parse_and_execute_run line t w c [path] NE T).
    unfold try_except, dispatch. rewrite C. simpl. unfold bind.
    rewrite save_command_run, W.
    destruct e; simpl in S; try discriminate; reflexivity.
Qed.

(** ** Scripts *)

Lemma main_loop_quit (before after : list string) (q : string) :
  names_quit q = true ->
  forall t w,
    main_loop (before ++ q :: after) t w = main_loop (before ++ [q]) t w.
Proof.
  intros Q. induction before as [|raw before IH]; intros t w.
  - simpl app. rewrite !main_loop_cons.
    now rewrite (quit_line_stops q t w Q).
  - simpl app. rewrite !main_loop_cons.
    destruct (parse_and_execute raw t w) as [[[[|] t']|e] w']; auto.
Qed.

Lemma main_loop_skip (before after : list string) (l : string) :
  malformed l = true -> names_quit l = false ->
  forall t w,
    main_loop (before ++ l :: after) t w = main_loop (before ++ after) t w.
Proof.
  intros Mal Q. induction before as [|raw before IH]; intros t w.
  - simpl app. rewrite main_loop_cons.
    now rewrite (malformed_no_effect l t w Mal Q).
  - simpl app. rewrite !main_loop_cons.
    destruct (parse_and_execute raw t w) as [[[[|] t']|e] w']; auto.
Qed.

(** X10. [main] stops at the first quit: the lines of standard input that
    follow a line whose first word is [quit] have no effect at all. *)
Theorem main_ignores_lines_after_quit (before after : list string)
    (q : string) (w : World) :
  names_quit q = true ->
  main (before ++ q :: after) w = main (before ++ [q]) w.
Proof.
  intros Q. rewrite !main_run. now rewrite (main_loop_quit before after q Q).
Qed.

(** X11. A line that is not a well-formed command and does not name [quit]
    can be taken out of the input of [main] without changing anything:
    what is printed, the files, the calls on the trie and the result are
    the same. *)
Theorem main_skips_malformed_lines (before after : list string)
    (l : string) (w : World) :
  malformed l = true -> names_quit l = false ->
  main (before ++ l :: after) w = main (before ++ after) w.
Proof.
  intros Mal Q. rewrite !main_run.
  now rewrite (main_loop_skip before after l Mal Q).
Qed.

(** X12. The loop of [main] composes: when no line of a first script names
    [quit], running it followed by a second script is running the first and
    then, unless it raised, the second from the trie and the world the
    first left. *)
Theorem main_loop_app (script1 script2 : list string) :
  Forall (fun l => names_quit l = false) script1 ->
  forall (t : Trie) (w : World),
    main_loop (script1 ++ script2) t w
    = match main_loop script1 t w with
      | (Ok t', w') => main_loop script2 t' w'
      | (Raise e, w') => (Raise e, w')
      end.
Proof.
  intros NQ. induction NQ as [|raw script1 Q _ IH]; intros t w;
    [reflexivity |].
  simpl app. rewrite !main_loop_cons.
  destruct (parse_and_execute_effects raw t w) as [_ [_ [_ [_ S]]]].
  destruct (parse_and_execute raw t w) as [[[[|] t']|e] w']; simpl in S;
    auto.
  rewrite Q in S. discriminate.
Qed.

(** X13. Over a whole run of [main], whatever standard input holds, every
    word or prefix handed to a trie method is the lower-casing of some
    string, and the first call is the construction of the trie. *)
Theorem main_hands_lowercase_words :
  forall (stdin : list string) (w : World),
    exists new,
      calls (snd (main stdin w)) = calls w ++ CallNew :: new
      /\ Forall lowered new.
Proof.
  intros stdin w. rewrite main_run.
  pose proof (main_loop_keeps
                (fun w1 w2 => exists new, calls w2 = calls w1 ++ new
                                          /\ Forall lowered new)) as K.
  destruct (K (fun w0 => ex_intro _ [] (conj (eq_sym (app_nil_r _))
                                           (Forall_nil _)))
              (fun w1 w2 w3 H1 H2 =>
                 match H1, H2 with
                 | ex_intro _ n1 (conj E1 F1), ex_intro _ n2 (conj E2 F2) =>
                     ex_intro _ (n1 ++ n2)
                       (conj (eq_trans E2
                                (eq_trans (f_equal (fun l => l ++ n2) E1)
                                   (eq_sym (app_assoc _ _ _))))
                             (proj2 (Forall_app _ _ _) (conj F1 F2)))
                 end)
              parse_and_execute_calls_lowered
              stdin Trie_new (logged [CallNew] w)) as [new [E F]].
  exists new. split; [|exact F].
  destruct (main_loop stdin Trie_new (logged [CallNew] w)) as [[t|e] w'];
    simpl in *; rewrite E, <- app_assoc; reflexivity.
Qed.

(** X14. A load command does not look at the trie it is given: with any two
    tries the dispatcher returns the same trie and leaves the same world.
    Loading replaces the words in memory, it never merges with them. *)
Theorem load_ignores_current_trie :
  forall (line : string) (t t' : Trie) (w : World),
    invokes line "load" 2 ->
    parse_and_execute line t w = parse_and_execute line t' w.
Proof.
  intros line t t' w Inv.
  apply invokes_two in Inv as [NE [c [path [T C]]]].
  destruct (load_csv_ok path w) as [pairs [w1 [L _]]].
  now rewrite (parse_and_execute_load line t w c path pairs w1 NE T C L),
    (parse_and_execute_load line t' w c path pairs w1 NE T C L).
Qed.



End DispatcherFacts.

(** * The tool on concrete inputs, with the sample builtins *)

Lemma sample_leb_total (a b : Z) : Z.leb a b = true \/ Z.leb b a = true.
Proof. destruct (Z.leb_spec a b); [now left | right; apply Z.leb_le; lia]. Qed.

Lemma sample_leb_trans (a b c : Z) :
  Z.leb a b = true -> Z.leb b c = true -> Z.leb a c = true.
Proof. rewrite !Z.leb_le. lia. Qed.

Lemma cat_car_can_wf : wf Sample.cat_car_can.
Proof. unfold Sample.cat_car_can. repeat apply wf_insert. apply wf_new. Qed.

(** The trie of the spec's test: checks of the model against section 8. *)
Example cat_car_can_items :
  Trie_items Sample.cat_car_can = [("cat", 5%Z); ("car", 3%Z); ("can", 5%Z)].
Proof. reflexivity. Qed.

Example pruning_removes_one_node :
  let t := Trie_insert "car" 3%Z (Trie_insert "cat" 5%Z Trie_new) in
  Trie_stats t = (2, 3, 5)
  /\ Trie_stats (snd (Trie_remove "cat" t)) = (1, 3, 4)
  /\ fst (Trie_remove "cat" t) = true
  /\ fst (Trie_remove "cat" (snd (Trie_remove "cat" t))) = false.
Proof. repeat split. Qed.

Example height_follows_live_nodes :
  let t := Trie_insert "abc" 1%Z
             (Trie_insert "ab" 1%Z (Trie_insert "a" 1%Z Trie_new)) in
  height t = 3 /\ height (snd (Trie_remove "abc" t)) = 2
  /\ Trie_stats Trie_new = (0, 0, 1)
  /\ Trie_contains "ab" (Trie_insert "abc" 1%Z Trie_new) = false.
Proof. repeat split. Qed.

Example sample_tokens : tokens "  insert  Cat 5 " = ["insert"; "Cat"; "5"].
Proof. reflexivity. Qed.

Example sample_complete_command :
  parse_and_execute "complete CA 2" Sample.cat_car_can Sample.empty_world
  = (Ok (true, Sample.cat_car_can),
     printed ["can,cat"] (logged [CallComplete "ca" 2] Sample.empty_world)).
Proof. reflexivity. Qed.

Example sample_stats_command :
  stdout (snd (parse_and_execute "stats" Sample.cat_car_can Sample.empty_world))
  = ["words=3 height=3 nodes=6"].
Proof. reflexivity. Qed.

Example sample_load_rows :
  load_rows [["Dog "; "7"]; []; [" "; "x"; "y"]; ["emu"]] []
  = [("dog", 7%Z); ("", 0%Z); ("emu", 0%Z)].
Proof. reflexivity. Qed.

Example sample_save_then_file :
  files (snd (parse_and_execute "save out.csv" Sample.cat_car_can
                Sample.empty_world)) "out.csv"
  = ReadRows [["cat"; "5.0"]; ["car"; "3.0"]; ["can"; "5.0"]].
Proof. reflexivity. Qed.

(** C1 on the trie of cat (5), car (3) and can (5). *)
Lemma complete_top_k_ranked_sample :
  Trie_complete "ca" 3 Sample.cat_car_can = ["can"; "cat"; "car"].
Proof.
  refine (proj1 (proj2 (complete_top_k_ranked sample_leb_total
                          sample_leb_trans))
            Sample.cat_car_can 5%Z 3%Z cat_car_can_wf eq_refl eq_refl _).
  exact (items_stores Sample.cat_car_can cat_car_can_wf).
Defined.

(** C3: a file whose only record is [,5] makes the load command call
    [insert] with the empty word. *)
Lemma load_calls_insert_with_empty_word :
  calls (snd (parse_and_execute "load words.csv" Trie_new
                (Sample.world_with "words.csv" [[""; "5"]])))
  = [CallNew; CallInsert "" 5%Z].
Proof. reflexivity. Qed.

Lemma load_coerces_weights_only_sample :
  In (CallInsert "" 5%Z)
     (insert_calls (load_rows [[""; "5"]; ["Dog "; "x"]] [])).
Proof.
  apply (proj2 (proj2 (load_coerces_weights_only Trie_new "words.csv"
                         (Sample.world_with "words.csv"
                            [[""; "5"]; ["Dog "; "x"]])
                         [[""; "5"]; ["Dog "; "x"]] eq_refl))).
  exists [""; "5"]. repeat split; [now left | discriminate].
Defined.

(** C6 on the trie of cat, car and can. *)
Lemma save_writes_one_record_per_item_sample :
  exists records,
    save_command Sample.cat_car_can "out.csv" Sample.empty_world
    = (Ok tt, written "out.csv" records (logged [CallItems] Sample.empty_world))
    /\ files (snd (save_command Sample.cat_car_can "out.csv"
                     Sample.empty_world)) "out.csv"
       = ReadRows records
    /\ length records = length (Trie_items Sample.cat_car_can)
    /\ Forall2 (fun item record =>
                  record = [fst item; str_of_float (snd item)])
               (Trie_items Sample.cat_car_can) records
    /\ Forall (fun record => length record = 2) records.
Proof.
  exact (save_writes_one_record_per_item Sample.cat_car_can "out.csv"
           Sample.empty_world eq_refl).
Defined.

(** C8: loading a file that does not exist empties the trie. *)
Lemma failed_load_discards_trie_sample :
  fst (load_csv "nofile.csv" Sample.empty_world) = Ok []
  /\ fst (parse_and_execute "load nofile.csv" Sample.cat_car_can
            Sample.empty_world) = Ok (true, Trie_new)
  /\ calls (snd (parse_and_execute "load nofile.csv" Sample.cat_car_can
                   Sample.empty_world)) = calls Sample.empty_world ++ [CallNew]
  /\ (forall word, Trie_contains word Trie_new = false)
  /\ Trie_items Trie_new = [].
Proof.
  apply (failed_load_discards_trie "load nofile.csv" Sample.cat_car_can
           Sample.empty_world "load" "nofile.csv"
           (FileNotFoundError "No such file or directory"));
    [discriminate | reflexivity | reflexivity | reflexivity].
Defined.

(** C9 fails on the line [quit now]: it has the wrong number of arguments
    ([quit] takes none, and [stats], the other command without arguments,
    is ignored when a word follows it), yet the dispatcher returns
    continue = false. *)
Lemma quit_with_argument_stops :
  malformed "quit now" = true
  /\ parse_and_execute "quit now" Sample.cat_car_can Sample.empty_world
     = (Ok (false, Sample.cat_car_can), Sample.empty_world)
  /\ malformed "stats now" = true
  /\ parse_and_execute "stats now" Sample.cat_car_can Sample.empty_world
     = (Ok (true, Sample.cat_car_can), Sample.empty_world).
Proof. repeat split. Qed.

Lemma malformed_line_ignored_sample :
  parse_and_execute "insert cat abc" Sample.cat_car_can Sample.empty_world
  = (Ok (true, Sample.cat_car_can), Sample.empty_world)
  /\ parse_and_execute "QUIT" Sample.cat_car_can Sample.empty_world
     = (Ok (false, Sample.cat_car_can), Sample.empty_world).
Proof.
  split.
  - apply (proj1 malformed_line_ignored); reflexivity.
  - apply (proj1 (proj2 malformed_line_ignored)); reflexivity.
Defined.

(** C4 on an insert command in capitals. *)
Lemma dispatcher_lowercases_words_sample :
  parse_and_execute "INSERT Cat 5" Trie_new Sample.empty_world
  = (Ok (true, Trie_insert "cat" 5%Z Trie_new),
     logged [CallInsert "cat" 5%Z] Sample.empty_world).
Proof.
  apply (proj1 dispatcher_lowercases_words "INSERT Cat 5" Trie_new
           Sample.empty_world "INSERT" "Cat" "5" 5%Z);
    [discriminate | reflexivity | reflexivity | reflexivity].
Defined.

(** * Scripts and files on concrete inputs *)

Example sample_main :
  let r := main ["insert Cat 5"; ""; "contains CAT"; "bogus"; "remove dog";
                 "quit"; "contains cat"] Sample.empty_world in
  fst r = Ok tt /\ stdout (snd r) = ["YES"; "MISS"] /\ stderr (snd r) = []
  /\ calls (snd r)
     = [CallNew; CallInsert "cat" 5%Z; CallContains "cat"; CallRemove "dog"].
Proof. repeat split. Qed.

(** X4 on a save whose [open] raises an exception of another class. *)
Lemma dispatcher_raises_only_from_save_sample :
  fst (parse_and_execute "save out.csv" Sample.cat_car_can
         (unwritable_world (OtherException "boom")))
  = Raise (OtherException "boom").
Proof.
  apply (proj2 (dispatcher_raises_only_from_save "save out.csv"
                  Sample.cat_car_can
                  (unwritable_world (OtherException "boom"))
                  (OtherException "boom"))).
  repeat split; try reflexivity; try discriminate.
  exists "save", ["out.csv"]. repeat split.
Defined.

(** X9 on a save to a path that cannot be written. *)
Lemma file_errors_reported_on_stdout_sample :
  parse_and_execute "save /out.csv" Sample.cat_car_can
    (unwritable_world (OSError "Permission denied"))
  = (Ok (true, Sample.cat_car_can),
     printed ["ERROR: Could not write to file /out.csv: Permission denied"]
       (logged [CallItems] (unwritable_world (OSError "Permission denied")))).
Proof.
  apply (proj1 (proj2 file_errors_reported_on_stdout) "save /out.csv"
           Sample.cat_car_can
           (unwritable_world (OSError "Permission denied"))
           (OSError "Permission denied")); try reflexivity.
  split; [discriminate |]. exists "save", ["/out.csv"]. repeat split.
Defined.

(** X10, X11 and X12 on short scripts. *)
Lemma main_ignores_lines_after_quit_sample :
  main (["insert cat 5"] ++ "Quit" :: ["insert dog 1"; "stats"])
    Sample.empty_world
  = main (["insert cat 5"] ++ ["Quit"]) Sample.empty_world.
Proof.
  apply (main_ignores_lines_after_quit ["insert cat 5"]
           ["insert dog 1"; "stats"] "Quit" Sample.empty_world).
  reflexivity.
Defined.

Lemma main_skips_malformed_lines_sample :
  main (["insert cat 5"] ++ "insert dog one" :: ["contains dog"])
    Sample.empty_world
  = main (["insert cat 5"] ++ ["contains dog"]) Sample.empty_world.
Proof.
  apply (main_skips_malformed_lines ["insert cat 5"] ["contains dog"]
           "insert dog one" Sample.empty_world); reflexivity.
Defined.

Lemma main_loop_app_sample :
  main_loop (["insert cat 5"; "bogus"] ++ ["contains cat"; "quit"]) Trie_new
    Sample.empty_world
  = match main_loop ["insert cat 5"; "bogus"] Trie_new Sample.empty_world with
    | (Ok t', w') => main_loop ["contains cat"; "quit"] t' w'
    | (Raise e, w') => (Raise e, w')
    end.
Proof.
  apply (main_loop_app ["insert cat 5"; "bogus"] ["contains cat"; "quit"]).
  repeat constructor.
Defined.

(** X7 on these pairs. *)
Lemma save_then_load_round_trip_sample :
  fst (load_csv (B := Decimal.builtins) "out.csv"
         (snd (save_csv "out.csv" Decimal.items Decimal.empty_world)))
  = Ok Decimal.items.
Proof.
  apply (proj1 (proj2 (save_then_load_round_trip (B := Decimal.builtins)
                         "out.csv" Decimal.items Decimal.empty_world eq_refl))).
  repeat constructor.
Defined.

(** X14 and X15 on concrete inputs. *)
Lemma load_ignores_current_trie_sample :
  parse_and_execute "load w.csv" Sample.cat_car_can
    (Sample.world_with "w.csv" [["dog"; "7"]])
  = parse_and_execute "load w.csv" Trie_new
      (Sample.world_with "w.csv" [["dog"; "7"]]).
Proof.
  apply load_ignores_current_trie.
  split; [discriminate |]. exists "load", ["w.csv"]. repeat split.
Defined.

